(** * Text formatter (src/app.py): wrap and justify paragraphs

    A shallow embedding of the [TextFormatter] class and of the
    [/format] endpoint of [src/app.py], with the Python primitives the
    code relies on ([str.split], [str.strip], [str.join],
    [str.splitlines], [re.split] at the pattern [\n\s*\n], [divmod],
    string repetition), followed by the properties of the layout
    algorithm.

    A Python [str] is a sequence of Unicode code points: it is modelled
    as a list of code points, a Python [int] as [Z].  Strings and lists
    are unbounded, as in the language definition.  The one operation of
    the code that CPython bounds by itself, the repetition [" " * n], is
    read twice: without bound first, and in [Module CPython] with the
    [OverflowError] of a count that is not index-sized and the
    [MemoryError] of a failed allocation; the second reading is the one
    in which the exceptions of the code are stated. *)

From Stdlib Require Import ZArith NArith List Lia Bool Ascii.
From Stdlib Require String.
Import ListNotations String.StringSyntax.

Delimit Scope string_scope with string.
Open Scope Z_scope.

(** ** Exceptions *)

Inductive exn : Type :=
| ZeroDivisionError
| OverflowError
| MemoryError.

Inductive result (A : Type) : Type :=
| Ok (a : A)
| Raise (e : exn).

Arguments Ok {A} a.
Arguments Raise {A} e.

Definition bind {A B : Type} (m : result A) (k : A -> result B) : result B :=
  match m with
  | Ok a => k a
  | Raise e => Raise e
  end.

Notation "x <- m ;; k" := (bind m (fun x => k))
  (at level 61, m at next level, right associativity).
Notation "' p <- m ;; k" := (bind m (fun x => match x with p => k end))
  (at level 61, p pattern, m at next level, right associativity).

(** A [for] loop whose body may raise: the first exception ends it. *)
Fixpoint foldM {A B : Type} (body : A -> B -> result A) (l : list B) (acc : A)
  : result A :=
  match l with
  | [] => Ok acc
  | x :: rest => acc' <- body acc x ;; foldM body rest acc'
  end.

(** ** Python primitives *)

Module Py.

(** A character is a code point, a string a list of them. *)
Abbreviation char := N (only parsing).
Abbreviation str := (list N) (only parsing).

Definition NL : char := 10%N.
Definition CR : char := 13%N.
Definition SP : char := 32%N.

(** [str.isspace] on one code point (CPython's [_PyUnicode_IsWhitespace]);
    the same set is what [\s] matches in a [str] pattern and what
    [str.split()] and [str.strip()] treat as white space. *)
Definition isspace (c : char) : bool :=
  ((0x09 <=? c) && (c <=? 0x0D)
   || (0x1C <=? c) && (c <=? 0x20)
   || (c =? 0x85) || (c =? 0xA0) || (c =? 0x1680)
   || (0x2000 <=? c) && (c <=? 0x200A)
   || (c =? 0x2028) || (c =? 0x2029) || (c =? 0x202F)
   || (c =? 0x205F) || (c =? 0x3000))%N.

(** Line boundaries of [str.splitlines] (CPython's [_PyUnicode_IsLinebreak]). *)
Definition is_linebreak (c : char) : bool :=
  ((0x0A <=? c) && (c <=? 0x0D)
   || (0x1C <=? c) && (c <=? 0x1E)
   || (c =? 0x85) || (c =? 0x2028) || (c =? 0x2029))%N.

(** [len] of a string or of a list. *)
Definition len {A : Type} (l : list A) : Z := Z.of_nat (length l).

(** [sum(...)] of integers. *)
Definition sum (l : list Z) : Z := fold_left Z.add l 0.

(** [list(enumerate(l))]. *)
Fixpoint enumerate_from {A : Type} (i : Z) (l : list A) : list (Z * A) :=
  match l with
  | [] => []
  | x :: rest => (i, x) :: enumerate_from (i + 1) rest
  end.

Definition enumerate {A : Type} (l : list A) : list (Z * A) :=
  enumerate_from 0 l.

(** [s * n]: repetition; a count below one gives the empty string. *)
Definition str_mul (s : str) (n : Z) : str :=
  concat (repeat s (Z.to_nat n)).

(** [divmod(a, b)] on integers: floor division, raising on a zero divisor. *)
Definition divmod (a b : Z) : result (Z * Z) :=
  if b =? 0 then Raise ZeroDivisionError else Ok (a / b, a mod b).

(** [sep.join(l)]. *)
Fixpoint join (sep : str) (l : list str) : str :=
  match l with
  | [] => []
  | x :: rest =>
      match rest with
      | [] => x
      | _ :: _ => x ++ sep ++ join sep rest
      end
  end.

(** [s.split()]: the maximal runs of characters that are not white space.
    [cur] is the run being read. *)
Fixpoint split_from (cur : str) (s : str) : list str :=
  match s with
  | [] => match cur with [] => [] | _ :: _ => [cur] end
  | c :: rest =>
      if isspace c then
        match cur with
        | [] => split_from [] rest
        | _ :: _ => cur :: split_from [] rest
        end
      else split_from (cur ++ [c]) rest
  end.

Definition split (s : str) : list str := split_from [] s.

(** [s.strip()]. *)
Fixpoint lstrip (s : str) : str :=
  match s with
  | [] => []
  | c :: rest => if isspace c then lstrip rest else s
  end.

Definition rstrip (s : str) : str := rev (lstrip (rev s)).

Definition strip (s : str) : str := rstrip (lstrip s).

(** [s.splitlines()]: split at line boundaries, [\r\n] counting as one;
    no empty last line after a final boundary. *)
Fixpoint splitlines_from (cur : str) (s : str) : list str :=
  match s with
  | [] => match cur with [] => [] | _ :: _ => [cur] end
  | c :: rest =>
      if is_linebreak c then
        if (c =? CR)%N then
          match rest with
          | c' :: rest' =>
              if (c' =? NL)%N then cur :: splitlines_from [] rest'
              else cur :: splitlines_from [] rest
          | [] => cur :: splitlines_from [] rest
          end
        else cur :: splitlines_from [] rest
      else splitlines_from (cur ++ [c]) rest
  end.

Definition splitlines (s : str) : list str := splitlines_from [] s.

(** The regular expression [\s*\n] tried at the head of [s], greedy with
    backtracking: [\s] takes the next character when it can and the rest
    matches; failing that, [\n] has to match here.  The result is the
    number of characters matched. *)
Fixpoint match_ws_star_nl (s : str) : option nat :=
  match s with
  | [] => None
  | c :: rest =>
      let stop := if (c =? NL)%N then Some 1%nat else None in
      if isspace c then
        match match_ws_star_nl rest with
        | Some n => Some (S n)
        | None => stop
        end
      else stop
  end.

(** The pattern [\n\s*\n] tried at the head of [s]. *)
Definition match_blank (s : str) : option nat :=
  match s with
  | [] => None
  | c :: rest =>
      if (c =? NL)%N then option_map S (match_ws_star_nl rest) else None
  end.

(** [re.split(r'\n\s*\n', s)]: scan from the left; at a position where the
    pattern matches, close the piece being read and skip the match.
    [skip] counts the characters of the current match still to pass. *)
Fixpoint re_split_scan (skip : nat) (cur : str) (s : str) : list str :=
  match s with
  | [] => [cur]
  | c :: rest =>
      match skip with
      | S k => re_split_scan k cur rest
      | O =>
          match match_blank s with
          | Some (S k) => cur :: re_split_scan k [] rest
          | _ => re_split_scan O (cur ++ [c]) rest
          end
      end
  end.

Definition re_split_blank (s : str) : list str := re_split_scan 0 [] s.

(** [s.split(sep)] for a separator [sep] of one character: the pieces
    between the occurrences of [sep], the empty ones included. *)
Fixpoint split_on_from (sep : char) (cur : str) (s : str) : list str :=
  match s with
  | [] => [cur]
  | c :: rest =>
      if (c =? sep)%N then cur :: split_on_from sep [] rest
      else split_on_from sep (cur ++ [c]) rest
  end.

Definition split_on (sep : char) (s : str) : list str :=
  split_on_from sep [] s.

(** A string literal of the source, as code points. *)
Definition lit (s : String.string) : str :=
  map N_of_ascii (String.list_ascii_of_string s).

End Py.

Import Py.

Arguments lit s%_string.

(** ** The formatter *)

Record TextFormatter : Type := { default_width : Z }.

(** One turn of the loop of [wrap_paragraph] over the words; the state is
    the three local variables [lines], [current] and [curr_len]. *)
Definition wrap_step (width : Z) (st : list str * list str * Z) (w : str)
  : list str * list str * Z :=
  let '(lines, current, curr_len) := st in
  if curr_len =? 0 then (lines, current ++ [w], len w)
  else if curr_len + 1 + len w <=? width then
    (lines, current ++ [w], curr_len + (1 + len w))
  else (lines ++ [join [SP] current], [w], len w).

Definition wrap_paragraph (self : TextFormatter) (paragraph : str) (width : Z)
  : list str :=
  let words := split paragraph in
  let '(lines, current, curr_len) :=
    fold_left (wrap_step width) words ([], [], 0) in
  match current with
  | [] => lines
  | _ :: _ => lines ++ [join [SP] current]
  end.

(** One turn of the loop of [justify_line] over [enumerate(words)]. *)
Definition justify_step (gaps base_space extra : Z) (parts : list str)
  (iw : Z * str) : list str :=
  let '(i, w) := iw in
  let parts := parts ++ [w] in
  if i <? gaps then
    let spaces := base_space + (if i <? extra then 1 else 0) in
    parts ++ [str_mul [SP] spaces]
  else parts.

Definition justify_line (self : TextFormatter) (words : list str) (width : Z)
  : result str :=
  match words with
  | [] => Ok []
  | [w0] => Ok (w0 ++ str_mul [SP] (Z.max 0 (width - len w0)))
  | _ :: _ :: _ =>
      let total_words_len := sum (map len words) in
      let total_spaces := width - total_words_len in
      let gaps := len words - 1 in
      '(base_space, extra) <- divmod total_spaces gaps ;;
      let parts :=
        fold_left (justify_step gaps base_space extra) (enumerate words) [] in
      Ok (concat parts)
  end.

(** One turn of the loop of [justify_paragraph] over [enumerate(wrapped)]. *)
Definition justify_paragraph_step (self : TextFormatter) (wrapped : list str)
  (width : Z) (justify_last_line : bool) (justified : list str)
  (il : Z * str) : result (list str) :=
  let '(i, line) := il in
  let words := split line in
  if (i =? len wrapped - 1) && negb justify_last_line then
    Ok (justified ++ [join [SP] words])
  else
    j <- justify_line self words width ;;
    Ok (justified ++ [j]).

Definition justify_paragraph (self : TextFormatter) (paragraph : str)
  (width : Z) (justify_last_line : bool) : result (list str) :=
  let wrapped := wrap_paragraph self paragraph width in
  foldM (justify_paragraph_step self wrapped width justify_last_line)
    (enumerate wrapped) [].

(** One turn of the loop of [format_text] over the paragraphs. *)
Definition format_text_step (self : TextFormatter) (width : Z)
  (justify justify_last_line : bool) (formatted_paras : list str) (p : str)
  : result (list str) :=
  let p_clean := join [SP] (split p) in
  lines <- (if justify
            then justify_paragraph self p_clean width justify_last_line
            else Ok (wrap_paragraph self p_clean width)) ;;
  Ok (formatted_paras ++ [join [NL] lines]).

Definition format_text (self : TextFormatter) (text : str) (width : option Z)
  (justify justify_last_line : bool) : result str :=
  let width :=
    match width with
    | None => default_width self
    | Some w => w
    end in
  let paragraphs := re_split_blank (strip text) in
  formatted_paras <-
    foldM (format_text_step self width justify justify_last_line)
      paragraphs [] ;;
  Ok (join [NL; NL] formatted_paras).

(** ** The HTTP layer *)

Record FormatRequest : Type := {
  text : str;
  width : Z;
  justify : bool;
  justify_last_line : bool
}.

Record FormatResponse : Type := {
  formatted : str;
  lines : list str
}.

Definition formatter : TextFormatter := {| default_width := 40 |}.

Definition format_endpoint (req : FormatRequest) : result FormatResponse :=
  formatted <- format_text formatter (text req) (Some (width req))
                 (justify req) (justify_last_line req) ;;
  let lines := splitlines formatted in
  Ok {| formatted := formatted; lines := lines |}.

(** ** String repetition as CPython bounds it *)

Module CPython.

(** The range of an index-sized integer ([Py_ssize_t] on 64 bits). *)
Definition ssize_max : Z := 2 ^ 63 - 1.

Definition ssize_min : Z := - 2 ^ 63.

Section Repetition.

(** Whether a string of that many characters can be allocated: a fact of
    the machine the code runs on. *)
Variable can_allocate : Z -> bool.

(** [s * n] in CPython: the count has to be index-sized; a count below one
    or an empty [s] gives the empty string and a count of one gives [s];
    the length of the result has to be index-sized, and the result is then
    allocated. *)
Definition str_mul (s : str) (n : Z) : result str :=
  if (n <? ssize_min) || (ssize_max <? n) then Raise OverflowError
  else if (n <? 1) || (len s =? 0) then Ok []
  else if n =? 1 then Ok s
  else if ssize_max / n <? len s then Raise OverflowError
  else if can_allocate (n * len s) then Ok (Py.str_mul s n)
  else Raise MemoryError.

(** One turn of the loop of [justify_line]; the repetition may raise. *)
Definition justify_step (gaps base_space extra : Z) (parts : list str)
  (iw : Z * str) : result (list str) :=
  let '(i, w) := iw in
  let parts := parts ++ [w] in
  if i <? gaps then
    let spaces := base_space + (if i <? extra then 1 else 0) in
    pad <- str_mul [SP] spaces ;;
    Ok (parts ++ [pad])
  else Ok parts.

Definition justify_line (self : TextFormatter) (words : list str) (width : Z)
  : result str :=
  match words with
  | [] => Ok []
  | [w0] =>
      pad <- str_mul [SP] (Z.max 0 (width - len w0)) ;;
      Ok (w0 ++ pad)
  | _ :: _ :: _ =>
      let total_words_len := sum (map len words) in
      let total_spaces := width - total_words_len in
      let gaps := len words - 1 in
      '(base_space, extra) <- divmod total_spaces gaps ;;
      parts <- foldM (justify_step gaps base_space extra)
                 (enumerate words) [] ;;
      Ok (concat parts)
  end.

Definition justify_paragraph_step (self : TextFormatter) (wrapped : list str)
  (width : Z) (justify_last_line : bool) (justified : list str)
  (il : Z * str) : result (list str) :=
  let '(i, line) := il in
  let words := split line in
  if (i =? len wrapped - 1) && negb justify_last_line then
    Ok (justified ++ [join [SP] words])
  else
    j <- justify_line self words width ;;
    Ok (justified ++ [j]).

Definition justify_paragraph (self : TextFormatter) (paragraph : str)
  (width : Z) (justify_last_line : bool) : result (list str) :=
  let wrapped := wrap_paragraph self paragraph width in
  foldM (justify_paragraph_step self wrapped width justify_last_line)
    (enumerate wrapped) [].

Definition format_text_step (self : TextFormatter) (width : Z)
  (justify justify_last_line : bool) (formatted_paras : list str) (p : str)
  : result (list str) :=
  let p_clean := join [SP] (split p) in
  lines <- (if justify
            then justify_paragraph self p_clean width justify_last_line
            else Ok (wrap_paragraph self p_clean width)) ;;
  Ok (formatted_paras ++ [join [NL] lines]).

Definition format_text (self : TextFormatter) (text : str) (width : option Z)
  (justify justify_last_line : bool) : result str :=
  let width :=
    match width with
    | None => default_width self
    | Some w => w
    end in
  let paragraphs := re_split_blank (strip text) in
  formatted_paras <-
    foldM (format_text_step self width justify justify_last_line)
      paragraphs [] ;;
  Ok (join [NL; NL] formatted_paras).

Definition format_endpoint (req : FormatRequest) : result FormatResponse :=
  formatted <- format_text formatter (text req) (Some (width req))
                 (justify req) (justify_last_line req) ;;
  let lines := splitlines formatted in
  Ok {| formatted := formatted; lines := lines |}.

End Repetition.

End CPython.

(** ** Vocabulary of the properties *)

Definition nows (s : str) : Prop := Forall (fun c => isspace c = false) s.

(** A word: a non-empty string without white space. *)
Definition is_word (w : str) : Prop := w <> [] /\ nows w.

(** A string with a character that is not white space has a word. *)
Definition nonblank (s : str) : Prop := Exists (fun c => isspace c = false) s.

(** The words of one line: either they fit in [width] once joined, or the
    line is one word alone. *)
Definition good_group (width : Z) (g : list str) : Prop :=
  g <> [] /\ Forall is_word g /\
  (len (join [SP] g) <= width \/ exists w, g = [w]).

(** Invariant of the loop of [wrap_paragraph] once the words [done] are read. *)
Definition wrap_inv (width : Z) (done : list str)
  (st : list str * list str * Z) : Prop :=
  let '(lines, current, curr_len) := st in
  exists groups,
    lines = map (join [SP]) groups /\
    Forall (good_group width) groups /\
    concat groups ++ current = done /\
    Forall is_word current /\
    (current = [] -> curr_len = 0) /\
    (current <> [] ->
     curr_len = len (join [SP] current) /\
     (curr_len <= width \/ exists w, current = [w])).

(** [w0 ++ g0 ++ w1 ++ g1 ++ ...]: the words in order, each followed by the
    next gap string while there is one. *)
Fixpoint interleave (ws gs : list str) : str :=
  match ws with
  | [] => []
  | w :: ws' =>
      match gs with
      | [] => w ++ interleave ws' []
      | g :: gs' => w ++ g ++ interleave ws' gs'
      end
  end.

(** The number of spaces the loop of [justify_line] computes for gap [i]. *)
Definition gap_width (base_space extra i : Z) : Z :=
  base_space + (if i <? extra then 1 else 0).

(** The widths of the [n] gaps from gap [i] on. *)
Definition gap_widths (base_space extra : Z) (i n : nat) : list Z :=
  map (fun j => gap_width base_space extra (Z.of_nat j)) (seq i n).

(** [[f(x) for x in l]] when [f] may raise. *)
Fixpoint mapM {A B : Type} (f : A -> result B) (l : list A) : result (list B) :=
  match l with
  | [] => Ok []
  | x :: rest => y <- f x ;; ys <- mapM f rest ;; Ok (y :: ys)
  end.

(** The first, the last character of a string is not white space. *)
Definition starts_nonws (s : str) : Prop :=
  exists c r, s = c :: r /\ isspace c = false.

Definition ends_nonws (s : str) : Prop :=
  exists r c, s = r ++ [c] /\ isspace c = false.

(** Words separated by one white-space character each. *)
Inductive tight : str -> Prop :=
| tight_word (w : str) : is_word w -> tight w
| tight_sep (w : str) (c : char) (s : str) :
    is_word w -> isspace c = true -> tight s -> tight (w ++ c :: s).


Definition no_linebreak (l : str) : Prop :=
  Forall (fun c => is_linebreak c = false) l.

(** A line of the output: not empty, and without a line boundary. *)
Definition plain_line (l : str) : Prop := l <> [] /\ no_linebreak l.

(** The lines [format_text] computes for the paragraph [p]. *)
Definition paragraph_lines (self : TextFormatter) (width : Z)
  (justify justify_last_line : bool) (p : str) : result (list str) :=
  let p_clean := join [SP] (split p) in
  if justify then justify_paragraph self p_clean width justify_last_line
  else Ok (wrap_paragraph self p_clean width).

(** One paragraph formatted without justification. *)
Definition wrapped_paragraph (self : TextFormatter) (width : Z) (p : str) : str :=
  join [NL] (wrap_paragraph self (join [SP] (split p)) width).

(** A string of white space only. *)
Definition blank (s : str) : Prop := Forall (fun c => isspace c = true) s.

(** Each element of a list is related by [R] to the next one. *)
Inductive chain {A : Type} (R : A -> A -> Prop) : list A -> Prop :=
| chain_nil : chain R []
| chain_one (x : A) : chain R [x]
| chain_cons (x y : A) (l : list A) :
    R x y -> chain R (y :: l) -> chain R (x :: y :: l).

(** The first word of the group [g2] has no room after the group [g1]. *)
Definition no_room (width : Z) (g1 g2 : list str) : Prop :=
  match g2 with
  | [] => True
  | w :: _ => width < len (join [SP] g1) + 1 + len w
  end.

(** Second invariant of the loop of [wrap_paragraph] once the words [done]
    are read: a line was closed only when the next word had no room. *)
Definition wrap_greedy_inv (width : Z) (done : list str)
  (st : list str * list str * Z) : Prop :=
  let '(lines, current, curr_len) := st in
  exists groups,
    lines = map (join [SP]) groups /\
    Forall (fun g => g <> [] /\ Forall is_word g) groups /\
    concat groups ++ current = done /\
    Forall is_word current /\
    (current = [] -> curr_len = 0 /\ groups = []) /\
    (current <> [] -> curr_len = len (join [SP] current)) /\
    chain (no_room width) (groups ++ [current]).

(** The words of the paragraphs of a text, as [format_text] reads them. *)
Definition paragraph_words (text : str) : list (list str) :=
  map split (re_split_blank (strip text)).

(** [r] is the result [r'], or one of the exceptions [E]. *)
Definition refines {A : Type} (E : exn -> Prop) (r r' : result A) : Prop :=
  r = r' \/ exists e, E e /\ r = Raise e.

(** [r] raises no exception outside [E]. *)
Definition only_raises {A : Type} (E : exn -> Prop) (r : result A) : Prop :=
  forall e, r = Raise e -> E e.

(** The allocation of some string of [width] characters or fewer fails. *)
Definition alloc_fails (can_allocate : Z -> bool) (width : Z) (e : exn) : Prop :=
  e = MemoryError /\ exists n, 1 <= n <= width /\ can_allocate n = false.

(** The exceptions of the repetition. *)
Definition repetition_error (e : exn) : Prop :=
  e = OverflowError \/ e = MemoryError.

(** The counts with which [justify_line] repeats the space, in order. *)
Definition repetition_counts (words : list str) (width : Z) : list Z :=
  match words with
  | [] => []
  | [w0] => [Z.max 0 (width - len w0)]
  | _ :: _ :: _ =>
      let total_spaces := width - sum (map len words) in
      let gaps := len words - 1 in
      gap_widths (total_spaces / gaps) (total_spaces mod gaps)
        0 (length words - 1)
  end.

(** * Properties *)

(** ** Running the source's examples *)

Example scenario_1 :
  format_endpoint {| text := lit "Linha de exemplo"; width := 40;
                     justify := false; justify_last_line := false |}
  = Ok {| formatted := lit "Linha de exemplo";
          lines := [lit "Linha de exemplo"] |}.
Proof. reflexivity. Qed.

Example scenario_2 :
  wrap_paragraph formatter (lit "aaa bbb ccc ddd") 7
  = [lit "aaa bbb"; lit "ccc ddd"].
Proof. reflexivity. Qed.

Example scenario_4 :
  format_endpoint
    {| text := lit "Para one here." ++ [NL; NL] ++ lit "Para two.";
       width := 20; justify := false; justify_last_line := false |}
  = Ok {| formatted := lit "Para one here." ++ [NL; NL] ++ lit "Para two.";
          lines := [lit "Para one here."; []; lit "Para two."] |}.
Proof. reflexivity. Qed.

Example re_split_greedy :
  re_split_blank (lit "a " ++ [NL; SP; NL; NL; SP] ++ lit "b" ++ [NL] ++ lit "c")
  = [lit "a "; [SP] ++ lit "b" ++ [NL] ++ lit "c"].
Proof. reflexivity. Qed.

Example scenario_5 :
  wrap_paragraph formatter (lit "ab abcdefghij cd") 5
  = [lit "ab"; lit "abcdefghij"; lit "cd"].
Proof. reflexivity. Qed.

Example split_runs :
  split (lit "  to   be " ++ [NL; 9%N] ++ lit "or ")
  = [lit "to"; lit "be"; lit "or"].
Proof. reflexivity. Qed.

Example strip_both_ends :
  strip ([NL; SP] ++ lit "to  be" ++ [SP; NL; NL]) = lit "to  be".
Proof. reflexivity. Qed.

Example splitlines_boundaries :
  splitlines (lit "a" ++ [CR; NL] ++ lit "b" ++ [NL; NL] ++ lit "c" ++ [NL])
  = [lit "a"; lit "b"; []; lit "c"].
Proof. reflexivity. Qed.

Example re_split_empty : re_split_blank [] = [[]].
Proof. reflexivity. Qed.

Example divmod_floor : divmod (-5) 3 = Ok (-2, 1).
Proof. reflexivity. Qed.

Example justify_line_one_word :
  justify_line formatter [lit "abc"] 5 = Ok (lit "abc  ").
Proof. reflexivity. Qed.

(** ** Words, lengths and sums *)

Lemma len_nil (A : Type) : len (@nil A) = 0.
Proof. reflexivity. Qed.

Lemma len_cons (A : Type) (x : A) (l : list A) : len (x :: l) = 1 + len l.
Proof. unfold len. cbn [length]. lia. Qed.

Lemma len_app (A : Type) (l1 l2 : list A) : len (l1 ++ l2) = len l1 + len l2.
Proof. unfold len. rewrite length_app. lia. Qed.

Lemma len_nonneg (A : Type) (l : list A) : 0 <= len l.
Proof. unfold len. lia. Qed.

Lemma len_pos (A : Type) (l : list A) : l <> [] -> 1 <= len l.
Proof. destruct l; [congruence | rewrite len_cons; pose proof (len_nonneg A l); lia]. Qed.

Lemma sum_from (l : list Z) (a : Z) : fold_left Z.add l a = a + sum l.
Proof.
  unfold sum. revert a.
  induction l as [|x l IH]; intros a; cbn [fold_left].
  - lia.
  - rewrite (IH (a + x)), (IH (0 + x)). lia.
Qed.

Lemma sum_nil : sum [] = 0.
Proof. reflexivity. Qed.

Lemma sum_cons (x : Z) (l : list Z) : sum (x :: l) = x + sum l.
Proof. unfold sum at 1. cbn [fold_left]. rewrite sum_from. lia. Qed.

Lemma sum_app (l1 l2 : list Z) : sum (l1 ++ l2) = sum l1 + sum l2.
Proof.
  induction l1 as [|x l1 IH]; cbn [app].
  - rewrite sum_nil. lia.
  - rewrite !sum_cons, IH. lia.
Qed.

Lemma isspace_NL : isspace NL = true.
Proof. reflexivity. Qed.

Lemma nows_not_NL (c : char) : isspace c = false -> (c =? NL)%N = false.
Proof.
  intros H. destruct (N.eqb_spec c NL) as [->|]; [discriminate H | reflexivity].
Qed.

(** Every line boundary of [splitlines] is a white-space character. *)
Lemma linebreak_isspace (c : char) : is_linebreak c = true -> isspace c = true.
Proof.
  unfold is_linebreak, isspace.
  rewrite !orb_true_iff, !andb_true_iff, !N.leb_le, !N.eqb_eq. lia.
Qed.

Lemma nows_not_linebreak (c : char) : isspace c = false -> is_linebreak c = false.
Proof.
  intros H. destruct (is_linebreak c) eqn:E; [|reflexivity].
  apply linebreak_isspace in E. congruence.
Qed.

(** ** [join] *)

Lemma join_cons2 (sep x y : str) (l : list str) :
  join sep (x :: y :: l) = x ++ sep ++ join sep (y :: l).
Proof. reflexivity. Qed.

Lemma join_app (sep : str) (l1 l2 : list str) :
  l1 <> [] -> l2 <> [] ->
  join sep (l1 ++ l2) = join sep l1 ++ sep ++ join sep l2.
Proof.
  intros H1 H2. induction l1 as [|x [|y l1] IH]; [congruence | |].
  - destruct l2; [congruence | reflexivity].
  - change ((x :: y :: l1) ++ l2) with (x :: y :: (l1 ++ l2)).
    rewrite !join_cons2.
    change (y :: l1 ++ l2) with ((y :: l1) ++ l2).
    rewrite IH by discriminate. now rewrite <- !app_assoc.
Qed.

Lemma join_snoc (sep w : str) (l : list str) :
  l <> [] -> join sep (l ++ [w]) = join sep l ++ sep ++ w.
Proof. intros H. now rewrite join_app by (assumption || discriminate). Qed.

Lemma len_join (c : char) (l : list str) :
  l <> [] -> len (join [c] l) = sum (map len l) + (len l - 1).
Proof.
  induction l as [|x [|y l] IH]; intros H; [congruence | |].
  - cbn [join map]. rewrite sum_cons, sum_nil, len_cons, len_nil. lia.
  - rewrite join_cons2, !len_app, IH by discriminate.
    cbn [map]. rewrite !sum_cons, !len_cons, len_nil. lia.
Qed.

(** ** [split] *)

Lemma split_from_app_space (c : char) (a b cur : str) :
  isspace c = true ->
  split_from cur (a ++ c :: b) = split_from cur a ++ split b.
Proof.
  intros Hc. revert cur.
  induction a as [|x a IH]; intros cur; cbn [app split_from].
  - rewrite Hc. destruct cur; reflexivity.
  - destruct (isspace x).
    + destruct cur; cbn [app]; now rewrite IH.
    + apply IH.
Qed.

Lemma split_from_nows (w cur : str) :
  nows w ->
  split_from cur w = match cur ++ w with [] => [] | _ :: _ => [cur ++ w] end.
Proof.
  intros H. revert cur.
  induction H as [|c w Hc _ IH]; intros cur; cbn [split_from].
  - now rewrite app_nil_r.
  - rewrite Hc, IH, <- app_assoc. reflexivity.
Qed.

Lemma split_word (w : str) : is_word w -> split w = [w].
Proof.
  intros [Hne Hw]. unfold split. rewrite split_from_nows by assumption.
  destruct w; [congruence | reflexivity].
Qed.

Lemma split_from_words (s cur : str) :
  nows cur -> Forall is_word (split_from cur s).
Proof.
  revert cur. induction s as [|c s IH]; intros cur Hcur; cbn [split_from].
  - destruct cur; constructor; [split; [discriminate | assumption] | constructor].
  - destruct (isspace c) eqn:Hc.
    + destruct cur.
      * apply IH. constructor.
      * constructor; [split; [discriminate | assumption] | apply IH; constructor].
    + apply IH. apply Forall_app. split; [assumption | repeat constructor; assumption].
Qed.

(** The results of [split] are words. *)
Lemma split_words (s : str) : Forall is_word (split s).
Proof. apply split_from_words. constructor. Qed.

Lemma split_app_space (c : char) (a b : str) :
  isspace c = true -> split (a ++ c :: b) = split a ++ split b.
Proof. intros Hc. unfold split at 1 2. now apply split_from_app_space. Qed.

Lemma split_join (c : char) (l : list str) :
  isspace c = true -> split (join [c] l) = concat (map split l).
Proof.
  intros Hc. induction l as [|x [|y l] IH].
  - reflexivity.
  - cbn [join map concat]. now rewrite app_nil_r.
  - rewrite join_cons2. cbn [app].
    rewrite split_app_space, IH by assumption. reflexivity.
Qed.

Lemma concat_split_words (ws : list str) :
  Forall is_word ws -> concat (map split ws) = ws.
Proof.
  induction 1 as [|w ws Hw _ IH]; [reflexivity|].
  cbn [map concat]. rewrite IH, split_word by assumption. reflexivity.
Qed.

(** Splitting a line that was made by joining words gives the words back. *)
Lemma split_join_words (c : char) (ws : list str) :
  isspace c = true -> Forall is_word ws -> split (join [c] ws) = ws.
Proof.
  intros Hc Hws. rewrite split_join by assumption.
  now apply concat_split_words.
Qed.

Lemma split_from_nonempty (s cur : str) : cur <> [] -> split_from cur s <> [].
Proof.
  revert cur. induction s as [|c s IH]; intros cur Hcur; cbn [split_from].
  - destruct cur; [congruence | discriminate].
  - destruct (isspace c).
    + destruct cur; [congruence | discriminate].
    + apply IH. destruct cur; discriminate.
Qed.

Lemma split_nonblank (s : str) : nonblank s -> split s <> [].
Proof.
  unfold split. generalize (@nil char) as cur.
  induction s as [|c s IH]; intros cur H; inversion H as [? ? Hc|? ? Hs]; subst;
    cbn [split_from].
  - rewrite Hc. apply split_from_nonempty. destruct cur; discriminate.
  - destruct (isspace c).
    + destruct cur; [now apply IH | discriminate].
    + now apply IH.
Qed.

(** ** The line wrapper: the lines are groups of consecutive words *)

Lemma len_join_words_pos (c : char) (l : list str) :
  Forall is_word l -> l <> [] -> 1 <= len (join [c] l).
Proof.
  intros Hl Hne. destruct l as [|x l]; [congruence|].
  inversion Hl as [|? ? [Hx _] _]; subst.
  pose proof (len_pos _ x Hx).
  destruct l as [|y l]; [assumption|].
  rewrite join_cons2, len_app.
  pose proof (len_nonneg _ ([c] ++ join [c] (y :: l))). lia.
Qed.

Lemma wrap_step_inv (width : Z) (done : list str) st (w : str) :
  is_word w -> wrap_inv width done st ->
  wrap_inv width (done ++ [w]) (wrap_step width st w).
Proof.
  destruct st as [[lines current] curr_len].
  intros Hw (groups & Hlines & Hgood & Hdone & Hcur & Hzero & Hlen).
  assert (Hw1 : Forall is_word [w]) by (repeat constructor; apply Hw).
  unfold wrap_step.
  destruct (Z.eqb_spec curr_len 0) as [E|E].
  - (* an empty current line takes the word whatever its length *)
    assert (current = []) as ->.
    { destruct current as [|x l]; [reflexivity|].
      destruct Hlen as [Hl _]; [discriminate|].
      pose proof (len_join_words_pos SP (x :: l) Hcur ltac:(discriminate)). lia. }
    exists groups. cbn [app]. rewrite app_nil_r in Hdone. subst done.
    split; [assumption|]. split; [assumption|]. split; [reflexivity|].
    split; [assumption|]. split; [discriminate|].
    intros _. split; [reflexivity|]. right. now exists w.
  - assert (Hne : current <> []) by (intros ->; now apply E, Hzero).
    destruct (Hlen Hne) as [Hl Hfit].
    destruct (Z.leb_spec (curr_len + 1 + len w) width) as [L|L].
    + (* the word fits after a separator *)
      exists groups.
      split; [assumption|]. split; [assumption|].
      split; [rewrite <- Hdone; now rewrite app_assoc|].
      split; [apply Forall_app; now split|].
      split; [intros H; now apply app_eq_nil in H as [_ H]|].
      intros _. split; [|left; lia].
      rewrite join_snoc, !len_app, len_cons, len_nil by assumption. lia.
    + (* the line is closed and the word starts the next one *)
      exists (groups ++ [current]).
      split; [rewrite map_app; cbn [map]; now rewrite Hlines|].
      split.
      { apply Forall_app. split; [assumption|].
        constructor; [|constructor].
        split; [assumption|]. split; [assumption|].
        destruct Hfit as [Hfit|Hfit]; [left; lia | now right]. }
      split; [rewrite concat_app; cbn [concat]; rewrite app_nil_r; now rewrite Hdone|].
      split; [assumption|]. split; [discriminate|].
      intros _. split; [reflexivity|]. right. now exists w.
Qed.

Lemma wrap_loop_inv (width : Z) (ws done : list str) st :
  Forall is_word ws -> wrap_inv width done st ->
  wrap_inv width (done ++ ws) (fold_left (wrap_step width) ws st).
Proof.
  intros Hws. revert done st.
  induction Hws as [|w ws Hw _ IH]; intros done st Hinv; cbn [fold_left].
  - now rewrite app_nil_r.
  - replace (done ++ w :: ws) with ((done ++ [w]) ++ ws)
      by now rewrite <- app_assoc.
    apply IH. now apply wrap_step_inv.
Qed.

(** What [wrap_paragraph] returns: the words of the paragraph cut into
    consecutive groups, every group joined by single spaces. *)
Lemma wrap_paragraph_groups (self : TextFormatter) (paragraph : str) (width : Z) :
  exists groups,
    wrap_paragraph self paragraph width = map (join [SP]) groups /\
    concat groups = split paragraph /\
    Forall (good_group width) groups.
Proof.
  unfold wrap_paragraph.
  assert (H0 : wrap_inv width [] ([], [], 0)).
  { exists []. split; [reflexivity|]. split; [constructor|].
    split; [reflexivity|]. split; [constructor|]. split; [reflexivity|].
    intros H. now contradiction H. }
  pose proof (wrap_loop_inv width (split paragraph) [] ([], [], 0)
                (split_words paragraph) H0) as H.
  cbn [app] in H.
  destruct (fold_left (wrap_step width) (split paragraph) ([], [], 0))
    as [[lines current] curr_len].
  destruct H as (groups & Hlines & Hgood & Hdone & Hcur & Hzero & Hlen).
  destruct current as [|x l].
  - exists groups. rewrite app_nil_r in Hdone. now repeat split.
  - exists (groups ++ [x :: l]).
    split; [rewrite map_app; cbn [map]; now rewrite Hlines|].
    split; [rewrite concat_app; cbn [concat]; now rewrite app_nil_r|].
    apply Forall_app. split; [assumption|].
    destruct Hlen as [Hl Hfit]; [discriminate|].
    constructor; [|constructor].
    split; [discriminate|]. split; [assumption|].
    destruct Hfit as [Hfit|Hfit]; [left; lia | now right].
Qed.

(** ** The line justifier: words interleaved with gap strings *)

Lemma str_mul_char (c : char) (n : Z) : str_mul [c] n = repeat c (Z.to_nat n).
Proof.
  unfold str_mul. induction (Z.to_nat n) as [|k IH]; [reflexivity|].
  cbn [repeat concat app]. now rewrite IH.
Qed.

Lemma len_str_mul (c : char) (n : Z) : len (str_mul [c] n) = Z.max 0 n.
Proof. rewrite str_mul_char. unfold len. rewrite repeat_length. lia. Qed.

Lemma str_mul_nonpos (s : str) (n : Z) : n <= 0 -> str_mul s n = [].
Proof.
  intros H. unfold str_mul. replace (Z.to_nat n) with 0%nat by lia. reflexivity.
Qed.

Lemma justify_loop (gaps base_space extra : Z) (ws : list str) :
  forall (i : nat) (parts : list str),
    ws <> [] ->
    Z.of_nat i + len ws = gaps + 1 ->
    concat (fold_left (justify_step gaps base_space extra)
              (enumerate_from (Z.of_nat i) ws) parts)
    = concat parts
      ++ interleave ws (map (str_mul [SP])
                          (gap_widths base_space extra i (length ws - 1))).
Proof.
  induction ws as [|w [|y r] IH]; intros i parts Hne Hi; [congruence | |].
  - rewrite len_cons, len_nil in Hi.
    cbn [enumerate_from fold_left justify_step].
    replace (Z.of_nat i <? gaps) with false by (symmetry; apply Z.ltb_ge; lia).
    rewrite concat_app. cbn. now rewrite !app_nil_r.
  - rewrite !len_cons in Hi. pose proof (len_nonneg _ r).
    change (enumerate_from (Z.of_nat i) (w :: y :: r))
      with ((Z.of_nat i, w) :: enumerate_from (Z.of_nat i + 1) (y :: r)).
    cbn [fold_left]. unfold justify_step at 2.
    replace (Z.of_nat i <? gaps) with true by (symmetry; apply Z.ltb_lt; lia).
    replace (Z.of_nat i + 1) with (Z.of_nat (S i)) by lia.
    rewrite (IH (S i)) by (try discriminate; rewrite len_cons; lia).
    rewrite !concat_app. cbn [concat length]. rewrite !app_nil_r, <- !app_assoc.
    replace (S (S (length r)) - 1)%nat with (S (S (length r) - 1)) by lia.
    unfold gap_widths at 2. cbn [seq map interleave].
    fold (gap_widths base_space extra (S i) (S (length r) - 1)).
    reflexivity.
Qed.

(** With two words or more the divisor of [divmod] is not zero, and the
    result of [justify_line] is the words interleaved with the computed
    gaps. *)
Lemma justify_line_interleave (self : TextFormatter) (words : list str) (width : Z) :
  (2 <= length words)%nat ->
  let gaps := len words - 1 in
  let total_spaces := width - sum (map len words) in
  justify_line self words width
  = Ok (interleave words
          (map (str_mul [SP])
             (gap_widths (total_spaces / gaps) (total_spaces mod gaps)
                0 (length words - 1)))).
Proof.
  intros Hn gaps total_spaces.
  destruct words as [|w0 [|w1 r]]; cbn [length] in Hn; try lia.
  unfold justify_line. fold gaps. fold total_spaces.
  assert (Hg : gaps = 1 + len r).
  { unfold gaps. rewrite !len_cons. lia. }
  pose proof (len_nonneg _ r).
  unfold divmod. destruct (Z.eqb_spec gaps 0) as [E|_]; [lia|].
  cbn [bind]. f_equal. unfold enumerate.
  rewrite (justify_loop gaps _ _ (w0 :: w1 :: r) 0) by (try discriminate; lia).
  reflexivity.
Qed.

Lemma sum_gap_widths (base_space extra : Z) (n : nat) :
  0 <= extra ->
  sum (gap_widths base_space extra 0 n)
  = base_space * Z.of_nat n + Z.min extra (Z.of_nat n).
Proof.
  intros He. unfold gap_widths.
  induction n as [|n IH]; [cbn; lia|].
  rewrite seq_S, map_app, sum_app, IH. cbn [map Nat.add].
  rewrite sum_cons, sum_nil. unfold gap_width.
  destruct (Z.ltb_spec (Z.of_nat n) extra); lia.
Qed.

Lemma gap_widths_nonneg (base_space extra : Z) (i n : nat) :
  0 <= base_space ->
  Forall (fun k => 0 <= k) (gap_widths base_space extra i n).
Proof.
  intros Hb. unfold gap_widths. apply Forall_map, Forall_forall. intros j _.
  unfold gap_width. destruct (Z.of_nat j <? extra); lia.
Qed.

Lemma sum_len_str_mul (ks : list Z) :
  Forall (fun k => 0 <= k) ks -> sum (map len (map (str_mul [SP]) ks)) = sum ks.
Proof.
  induction 1 as [|k ks Hk _ IH]; [reflexivity|].
  cbn [map]. rewrite !sum_cons, IH, len_str_mul. lia.
Qed.

Lemma interleave_nil (ws : list str) : interleave ws [] = concat ws.
Proof.
  induction ws as [|w ws IH]; [reflexivity|].
  cbn [interleave concat]. now rewrite IH.
Qed.

Lemma len_concat (ws : list str) : len (concat ws) = sum (map len ws).
Proof.
  induction ws as [|w ws IH]; [reflexivity|].
  cbn [concat map]. rewrite len_app, sum_cons, IH. reflexivity.
Qed.

Lemma len_interleave (ws gs : list str) :
  (length gs < length ws)%nat ->
  len (interleave ws gs) = sum (map len ws) + sum (map len gs).
Proof.
  revert gs. induction ws as [|w ws IH]; intros gs H; cbn [length] in H; [lia|].
  destruct gs as [|g gs]; cbn [interleave map length] in *.
  - rewrite len_app, interleave_nil, len_concat, sum_cons, sum_nil. lia.
  - rewrite !len_app, !sum_cons, IH by lia. lia.
Qed.

Lemma gap_widths_length (base_space extra : Z) (i n : nat) :
  length (gap_widths base_space extra i n) = n.
Proof. unfold gap_widths. now rewrite length_map, length_seq. Qed.

(** The arithmetic of [divmod] on the branch of two words or more. *)
Lemma divmod_gaps (total_spaces gaps : Z) :
  1 <= gaps -> 0 <= total_spaces ->
  0 <= total_spaces / gaps /\
  0 <= total_spaces mod gaps < gaps /\
  gaps * (total_spaces / gaps) + total_spaces mod gaps = total_spaces.
Proof.
  intros Hg Ht. split; [apply Z.div_pos; lia|].
  split; [apply Z.mod_pos_bound; lia|].
  symmetry. apply Z.div_mod. lia.
Qed.

(** ** [split] at one separator character *)

Lemma split_on_from_free (c : char) (a cur : str) :
  Forall (fun x => (x =? c)%N = false) a ->
  split_on_from c cur a = [cur ++ a].
Proof.
  intros H. revert cur.
  induction H as [|x a Hx _ IH]; intros cur; cbn [split_on_from].
  - now rewrite app_nil_r.
  - rewrite Hx, IH, <- app_assoc. reflexivity.
Qed.

Lemma split_on_from_app (c : char) (a b cur : str) :
  Forall (fun x => (x =? c)%N = false) a ->
  split_on_from c cur (a ++ c :: b) = (cur ++ a) :: split_on c b.
Proof.
  intros H. revert cur.
  induction H as [|x a Hx _ IH]; intros cur; cbn [app split_on_from].
  - rewrite N.eqb_refl, app_nil_r. reflexivity.
  - rewrite Hx, IH, <- app_assoc. reflexivity.
Qed.

(** Splitting at [c] undoes joining with [c] pieces that have no [c]. *)
Lemma split_on_join (c : char) (l : list str) :
  l <> [] ->
  Forall (Forall (fun x => (x =? c)%N = false)) l ->
  split_on c (join [c] l) = l.
Proof.
  intros Hne Hl. revert Hne.
  induction Hl as [|x l Hx Hl IH]; intros Hne; [congruence|].
  destruct l as [|y l].
  - cbn [join]. unfold split_on. now rewrite split_on_from_free.
  - rewrite join_cons2. cbn [app]. unfold split_on at 1.
    rewrite split_on_from_app by assumption.
    rewrite IH by discriminate. reflexivity.
Qed.

Lemma nows_no_SP (w : str) :
  nows w -> Forall (fun x => (x =? SP)%N = false) w.
Proof.
  apply Forall_impl. intros c Hc.
  destruct (N.eqb_spec c SP) as [->|]; [discriminate Hc | reflexivity].
Qed.

(** ** Properties of the wrapped lines *)

Lemma len_le_sum (w : str) (g : list str) :
  In w g -> len w <= sum (map len g).
Proof.
  induction g as [|x g IH]; intros H; [contradiction|].
  cbn [map]. rewrite sum_cons.
  assert (0 <= sum (map len g)).
  { rewrite <- len_concat. apply len_nonneg. }
  pose proof (len_nonneg _ x).
  destruct H as [->|H]; [|specialize (IH H)]; lia.
Qed.

(** In a line of the wrapper, a word longer than [width] is alone. *)
Lemma good_group_overlong (width : Z) (g : list str) (w : str) :
  good_group width g -> In w g -> width < len w -> g = [w].
Proof.
  intros (Hne & Hg & [Hfit|[x ->]]) Hin Hw.
  - exfalso. rewrite len_join in Hfit by assumption.
    pose proof (len_le_sum w g Hin). pose proof (len_pos _ g Hne). lia.
  - destruct Hin as [->|[]]. reflexivity.
Qed.

Lemma good_group_split (width : Z) (g : list str) :
  good_group width g -> split (join [SP] g) = g.
Proof. intros (_ & Hg & _). now apply split_join_words. Qed.

Lemma in_concat_groups (g : list str) (groups : list (list str)) (w : str) :
  In g groups -> In w g -> In w (concat groups).
Proof. intros Hg Hw. apply in_concat. now exists g. Qed.

(** C1. Every line returned by [wrap_paragraph] is at most [width] long,
    except a line that is one word of the paragraph longer than [width]:
    that line is the word itself, so its length is the word's length and
    it overflows by [len word - width].  A word longer than [width] always
    sits alone on its line (a word of length 10 at width 5 gives a line of
    length 10). *)
Theorem wrap_paragraph_width_bound
  (self : TextFormatter) (paragraph : str) (width : Z) (line : str) :
  In line (wrap_paragraph self paragraph width) ->
  (len line <= width \/
   (In line (split paragraph) /\ is_word line /\ width < len line)) /\
  (forall word, In word (split line) -> width < len word ->
                line = word /\ len line - width = len word - width).
Proof.
  destruct (wrap_paragraph_groups self paragraph width)
    as (groups & -> & Hcat & Hgood).
  intros Hin. apply in_map_iff in Hin as (g & <- & Hg).
  pose proof (proj1 (Forall_forall _ _) Hgood g Hg) as Hgg.
  split.
  - destruct Hgg as (Hne & Hws & [Hfit|[w ->]]); [now left|].
    cbn [join]. destruct (Z.leb_spec (len w) width) as [L|L]; [now left|].
    right. split; [|split; [now inversion Hws | assumption]].
    rewrite <- Hcat. apply (in_concat_groups [w]); [assumption | now left].
  - intros word Hword Hlong.
    rewrite (good_group_split width g Hgg) in Hword.
    rewrite (good_group_overlong width g word Hgg Hword Hlong).
    cbn [join]. now split.
Qed.

Lemma wrap_paragraph_width_bound_witness :
  let word := lit "abcdefghij" in
  len word = 10 /\
  wrap_paragraph formatter word 5 = [word] /\
  (len word <= 5 \/
   (In word (split word) /\ is_word word /\ 5 < len word)) /\
  (forall w, In w (split word) -> 5 < len w ->
             word = w /\ len word - 5 = len w - 5).
Proof.
  intros word. split; [reflexivity|]. split; [reflexivity|].
  apply (wrap_paragraph_width_bound formatter word 5 word).
  now left.
Defined.

(** The words of the wrapped lines are the words of the paragraph. *)
Lemma wrap_paragraph_words (self : TextFormatter) (paragraph : str) (width : Z) :
  concat (map split (wrap_paragraph self paragraph width)) = split paragraph.
Proof.
  destruct (wrap_paragraph_groups self paragraph width)
    as (groups & -> & <- & Hgood).
  rewrite map_map. f_equal.
  rewrite <- (map_id groups) at 2. apply map_ext_in. intros g Hg.
  apply (good_group_split width).
  now apply (proj1 (Forall_forall _ _) Hgood).
Qed.

(** C5. Word atomicity: the words of the successive lines of
    [wrap_paragraph], concatenated in order, are the words of the
    paragraph; this holds with the lines split at white space and with the
    lines split at the space character. *)
Theorem wrap_paragraph_word_atomicity
  (self : TextFormatter) (paragraph : str) (width : Z) :
  concat (map split (wrap_paragraph self paragraph width)) = split paragraph /\
  concat (map (split_on SP) (wrap_paragraph self paragraph width))
  = split paragraph.
Proof.
  split; [apply wrap_paragraph_words|].
  destruct (wrap_paragraph_groups self paragraph width)
    as (groups & -> & <- & Hgood).
  rewrite map_map. f_equal.
  rewrite <- (map_id groups) at 2. apply map_ext_in. intros g Hg.
  destruct (proj1 (Forall_forall _ _) Hgood g Hg) as (Hne & Hws & _).
  apply split_on_join; [assumption|].
  revert Hws. apply Forall_impl. intros w [_ Hw]. now apply nows_no_SP.
Qed.

(** ** Properties of the justified lines *)



(** The length of a justified line of two words or more whose words fit. *)
Lemma justify_line_len (self : TextFormatter) (words : list str) (width : Z) :
  (2 <= length words)%nat ->
  sum (map len words) <= width ->
  exists line, justify_line self words width = Ok line /\ len line = width.
Proof.
  intros Hn Hfit. eexists. split; [now apply justify_line_interleave|].
  set (gaps := len words - 1). set (total_spaces := width - sum (map len words)).
  assert (Hg : gaps = Z.of_nat (length words - 1)) by (unfold gaps, len; lia).
  destruct (divmod_gaps total_spaces gaps) as (Hb & He & Hdiv);
    [lia | unfold total_spaces; lia |].
  rewrite len_interleave
    by (rewrite length_map, gap_widths_length; lia).
  rewrite sum_len_str_mul by now apply gap_widths_nonneg.
  rewrite sum_gap_widths, <- Hg by lia. lia.
Qed.






(** ** Strings made of words and single separators *)

Lemma word_starts (w : str) : is_word w -> starts_nonws w.
Proof.
  intros [Hne Hw]. destruct w as [|c r]; [congruence|].
  exists c, r. split; [reflexivity | now inversion Hw].
Qed.

Lemma word_ends (w : str) : is_word w -> ends_nonws w.
Proof.
  intros [Hne Hw]. destruct (exists_last Hne) as (r & c & ->).
  exists r, c. split; [reflexivity|].
  apply Forall_app in Hw as [_ Hc]. now inversion Hc.
Qed.

Lemma starts_nonws_app (a b : str) : starts_nonws a -> starts_nonws (a ++ b).
Proof. intros (c & r & -> & Hc). now exists c, (r ++ b). Qed.

Lemma ends_nonws_app (a b : str) : ends_nonws b -> ends_nonws (a ++ b).
Proof.
  intros (r & c & -> & Hc). exists (a ++ r), c. now rewrite app_assoc.
Qed.

Lemma tight_starts (s : str) : tight s -> starts_nonws s.
Proof.
  intros [w Hw|w c s' Hw _ _]; [|apply starts_nonws_app]; now apply word_starts.
Qed.

Lemma tight_ends (s : str) : tight s -> ends_nonws s.
Proof.
  induction 1 as [w Hw|w c s Hw Hc Hs IH]; [now apply word_ends|].
  now apply ends_nonws_app, (ends_nonws_app [c]).
Qed.

Lemma tight_app (a b : str) (c : char) :
  tight a -> isspace c = true -> tight b -> tight (a ++ c :: b).
Proof.
  intros Ha Hc Hb. induction Ha as [w Hw|w c0 s Hw Hc0 Hs IH].
  - now apply tight_sep.
  - rewrite <- app_assoc. cbn [app]. now apply tight_sep.
Qed.

Lemma tight_join (c : char) (l : list str) :
  isspace c = true -> l <> [] -> Forall tight l -> tight (join [c] l).
Proof.
  intros Hc Hne Hl. revert Hne.
  induction Hl as [|x l Hx Hl IH]; intros Hne; [congruence|].
  destruct l as [|y l]; [assumption|].
  rewrite join_cons2. cbn [app]. apply tight_app; try assumption.
  apply IH. discriminate.
Qed.

(** A line of the wrapper is words separated by single spaces. *)
Lemma good_group_tight (width : Z) (g : list str) :
  good_group width g -> tight (join [SP] g).
Proof.
  intros (Hne & Hg & _). apply tight_join; [reflexivity | assumption |].
  revert Hg. apply Forall_impl. exact tight_word.
Qed.

Lemma wrap_paragraph_lines (self : TextFormatter) (paragraph : str) (width : Z) :
  Forall (fun line => tight line /\ join [SP] (split line) = line)
    (wrap_paragraph self paragraph width).
Proof.
  destruct (wrap_paragraph_groups self paragraph width)
    as (groups & -> & _ & Hgood).
  apply Forall_map. revert Hgood. apply Forall_impl. intros g Hg.
  split; [now apply (good_group_tight width)|].
  now rewrite (good_group_split width).
Qed.

(** ** Results with the unbounded repetition *)

Lemma justify_line_total (self : TextFormatter) (words : list str) (width : Z) :
  exists line, justify_line self words width = Ok line.
Proof.
  destruct words as [|w0 [|w1 r]].
  - now exists [].
  - eexists. reflexivity.
  - eexists. apply justify_line_interleave. cbn [length]. lia.
Qed.

Lemma foldM_total (A B : Type) (body : A -> B -> result A) :
  (forall acc x, exists acc', body acc x = Ok acc') ->
  forall l acc, exists r, foldM body l acc = Ok r.
Proof.
  intros Hbody l. induction l as [|x l IH]; intros acc; cbn [foldM].
  - now exists acc.
  - destruct (Hbody acc x) as (acc' & ->). cbn [bind]. apply IH.
Qed.

Lemma justify_paragraph_total
  (self : TextFormatter) (paragraph : str) (width : Z) (jl : bool) :
  exists justified, justify_paragraph self paragraph width jl = Ok justified.
Proof.
  unfold justify_paragraph. apply foldM_total. intros acc [i line].
  unfold justify_paragraph_step.
  destruct ((i =? _) && negb jl); [eexists; reflexivity|].
  destruct (justify_line_total self (split line) width) as (j & ->).
  eexists. reflexivity.
Qed.

Lemma format_text_step_total
  (self : TextFormatter) (width : Z) (justify jl : bool)
  (formatted_paras : list str) (p : str) :
  exists r, format_text_step self width justify jl formatted_paras p = Ok r.
Proof.
  unfold format_text_step. destruct justify.
  - destruct (justify_paragraph_total self (join [SP] (split p)) width jl)
      as (ls & ->).
    eexists. reflexivity.
  - eexists. reflexivity.
Qed.

Lemma format_text_total
  (self : TextFormatter) (text : str) (width : option Z) (justify jl : bool) :
  exists out, format_text self text width justify jl = Ok out.
Proof.
  unfold format_text.
  set (w := match width with None => default_width self | Some w => w end).
  destruct (foldM_total _ _ _ (format_text_step_total self w justify jl)
              (re_split_blank (strip text)) []) as (r & ->).
  eexists. reflexivity.
Qed.

(** ** The paragraph formatter *)

Lemma justify_paragraph_loop
  (self : TextFormatter) (wrapped : list str) (width : Z) (jl : bool)
  (ls : list str) :
  forall (i : nat) (acc : list str),
    ls <> [] ->
    Z.of_nat i + len ls = len wrapped ->
    foldM (justify_paragraph_step self wrapped width jl)
      (enumerate_from (Z.of_nat i) ls) acc
    = front <- mapM (fun line => justify_line self (split line) width)
                 (removelast ls) ;;
      last_line <- (if jl
                    then justify_line self (split (last ls [])) width
                    else Ok (join [SP] (split (last ls [])))) ;;
      Ok (acc ++ front ++ [last_line]).
Proof.
  induction ls as [|l [|y r] IH]; intros i acc Hne Hi; [congruence | |].
  - rewrite len_cons, len_nil in Hi.
    cbn [enumerate_from foldM justify_paragraph_step removelast last mapM bind].
    replace (Z.of_nat i =? len wrapped - 1) with true
      by (symmetry; apply Z.eqb_eq; lia).
    destruct jl; cbn [andb negb]; [|reflexivity].
    destruct (justify_line self (split l) width); reflexivity.
  - rewrite !len_cons in Hi. pose proof (len_nonneg _ r).
    change (enumerate_from (Z.of_nat i) (l :: y :: r))
      with ((Z.of_nat i, l) :: enumerate_from (Z.of_nat i + 1) (y :: r)).
    change (removelast (l :: y :: r)) with (l :: removelast (y :: r)).
    change (last (l :: y :: r) []) with (last (y :: r) []).
    cbn [foldM mapM]. unfold justify_paragraph_step at 1.
    replace (Z.of_nat i =? len wrapped - 1) with false
      by (symmetry; apply Z.eqb_neq; lia).
    cbn [andb].
    destruct (justify_line self (split l) width) as [j|e]; cbn [bind];
      [|reflexivity].
    replace (Z.of_nat i + 1) with (Z.of_nat (S i)) by lia.
    rewrite IH by (try discriminate; rewrite !len_cons; lia).
    destruct (mapM _ (removelast (y :: r))) as [front|e]; cbn [bind];
      [|reflexivity].
    destruct (if jl then _ else _) as [last_line|e]; cbn [bind];
      [|reflexivity].
    now rewrite <- app_assoc.
Qed.


(** C6, as amended. Scenario 3: ["aaa bbb ccc ddd"] at width 7 with
    [justify] and without [justify_last_line] gives the lines ["aaa bbb"]
    and ["ccc ddd"]: the first line is justified to the width 7, which its
    two words and one gap of one space already fill ([total_spaces = 1]),
    and the last line is left as it was wrapped. *)
Theorem scenario_3_justify_ragged_last_line :
  format_text formatter (lit "aaa bbb ccc ddd") (Some 7) true false
  = Ok (lit "aaa bbb" ++ [NL] ++ lit "ccc ddd")
  /\ format_endpoint {| text := lit "aaa bbb ccc ddd"; width := 7;
                        justify := true; justify_last_line := false |}
     = Ok {| formatted := lit "aaa bbb" ++ [NL] ++ lit "ccc ddd";
             lines := [lit "aaa bbb"; lit "ccc ddd"] |}
  /\ justify_line formatter [lit "aaa"; lit "bbb"] 7 = Ok (lit "aaa bbb")
  /\ len (lit "aaa bbb") = 7.
Proof. repeat split. Qed.

(** C6, as stated, fails: the first line does not get four spaces (it
    would be ten characters long at width 7). *)
Lemma scenario_3_four_spaces_refuted :
  ~ (exists resp,
        format_endpoint {| text := lit "aaa bbb ccc ddd"; width := 7;
                           justify := true; justify_last_line := false |}
        = Ok resp /\
        lines resp = [lit "aaa" ++ repeat SP 4 ++ lit "bbb"; lit "ccc ddd"]).
Proof.
  intros (resp & Hresp & Hlines).
  vm_compute in Hresp. injection Hresp as <-.
  vm_compute in Hlines. discriminate Hlines.
Qed.

(** ** Empty and blank input *)

Lemma lstrip_blank (s : str) :
  Forall (fun c => isspace c = true) s -> lstrip s = [].
Proof.
  induction 1 as [|c s Hc _ IH]; [reflexivity|].
  cbn [lstrip]. now rewrite Hc.
Qed.

Lemma strip_blank (s : str) :
  Forall (fun c => isspace c = true) s -> strip s = [].
Proof. intros H. unfold strip. now rewrite lstrip_blank. Qed.

(** C7. For an input made of white space only (the empty input included)
    the splitter gives one empty paragraph, the wrapper gives no line for
    the empty paragraph, and [format_text] returns the empty string,
    whatever the width and the flags. *)
Theorem format_text_blank_input
  (self : TextFormatter) (text : str) (width : option Z) (justify jl : bool) :
  Forall (fun c => isspace c = true) text ->
  re_split_blank (strip text) = [[]] /\
  join [SP] (split []) = [] /\
  (forall w, wrap_paragraph self [] w = []) /\
  format_text self text width justify jl = Ok [].
Proof.
  intros H. unfold format_text. rewrite (strip_blank text H).
  repeat split. destruct justify; reflexivity.
Qed.

Lemma format_text_blank_input_witness :
  format_text formatter [SP; NL; 9%N; NL; NL; SP] (Some 7) true true = Ok [].
Proof.
  apply (format_text_blank_input formatter [SP; NL; 9%N; NL; NL; SP]
           (Some 7) true true).
  repeat constructor.
Defined.

(** ** [strip] *)

Lemma ends_nonws_last (a : str) (c : char) :
  ends_nonws (a ++ [c]) -> isspace c = false.
Proof. intros (r & d & E & Hd). now apply app_inj_tail in E as [_ ->]. Qed.

Lemma ends_nonws_suffix (a r : str) :
  ends_nonws (a ++ r) -> r <> [] -> ends_nonws r.
Proof.
  intros H Hne. destruct (exists_last Hne) as (r' & c & ->).
  exists r', c. split; [reflexivity|].
  rewrite app_assoc in H. now apply ends_nonws_last in H.
Qed.

Lemma ends_nonws_rev (s : str) : ends_nonws s -> starts_nonws (rev s).
Proof.
  intros (r & c & -> & Hc). exists c, (rev r).
  now rewrite rev_app_distr.
Qed.

Lemma starts_nonws_rev (s : str) : starts_nonws s -> ends_nonws (rev s).
Proof. intros (c & r & -> & Hc). now exists (rev r), c. Qed.

Lemma lstrip_cases (s : str) : lstrip s = [] \/ starts_nonws (lstrip s).
Proof.
  induction s as [|c s IH]; [now left|]. cbn [lstrip].
  destruct (isspace c) eqn:Hc; [assumption|]. right. now exists c, s.
Qed.

Lemma lstrip_suffix (s : str) : exists ws, s = ws ++ lstrip s.
Proof.
  induction s as [|c s (ws & IH)]; [now exists []|]. cbn [lstrip].
  destruct (isspace c).
  - exists (c :: ws). cbn [app]. now rewrite <- IH.
  - now exists [].
Qed.

Lemma lstrip_starts (s : str) : starts_nonws s -> lstrip s = s.
Proof. intros (c & r & -> & Hc). cbn [lstrip]. now rewrite Hc. Qed.

Lemma rstrip_cases (s : str) : rstrip s = [] \/ ends_nonws (rstrip s).
Proof.
  unfold rstrip. destruct (lstrip_cases (rev s)) as [->|H]; [now left|].
  right. now apply starts_nonws_rev.
Qed.

Lemma rstrip_prefix (s : str) : exists ws, s = rstrip s ++ ws.
Proof.
  unfold rstrip. destruct (lstrip_suffix (rev s)) as (ws & E).
  exists (rev ws). rewrite <- rev_app_distr, <- E. now rewrite rev_involutive.
Qed.

(** The stripped text is empty or has a word character at both ends. *)
Lemma strip_cases (s : str) :
  strip s = [] \/ (starts_nonws (strip s) /\ ends_nonws (strip s)).
Proof.
  unfold strip. generalize (lstrip_cases s). generalize (lstrip s) as u.
  intros u Hu.
  destruct (rstrip_cases u) as [->|He]; [now left|].
  right. split; [|assumption].
  destruct (rstrip_prefix u) as (ws & E).
  destruct (rstrip u) as [|d v].
  - destruct He as (r & c & Hr & _). now destruct r.
  - destruct Hu as [->|(c & r & -> & Hc)]; [discriminate|].
    injection E as -> _. now exists d, v.
Qed.

Lemma strip_fixed (s : str) : starts_nonws s -> ends_nonws s -> strip s = s.
Proof.
  intros Hs He. unfold strip, rstrip.
  rewrite (lstrip_starts s Hs), (lstrip_starts (rev s) (ends_nonws_rev s He)).
  apply rev_involutive.
Qed.

(** ** The paragraph splitter *)

Lemma re_split_scan_skip (pre r cur : str) :
  re_split_scan (length pre) cur (pre ++ r) = re_split_scan 0 cur r.
Proof. induction pre as [|x pre IH]; [reflexivity | exact IH]. Qed.

Lemma match_ws_star_nl_nows (c : char) (rest : str) :
  isspace c = false -> match_ws_star_nl (c :: rest) = None.
Proof. intros Hc. cbn [match_ws_star_nl]. now rewrite Hc, (nows_not_NL c Hc). Qed.

Lemma match_ws_star_nl_space (c : char) (rest : str) :
  isspace c = true -> match_ws_star_nl (c :: rest) = None ->
  match_ws_star_nl rest = None.
Proof.
  intros Hc. cbn [match_ws_star_nl]. rewrite Hc.
  now destruct (match_ws_star_nl rest).
Qed.

(** A match of [\s*\n] ends at a line break after which [\s*\n] does not
    match again: the star is greedy. *)
Lemma match_ws_star_nl_Some (s : str) (n : nat) :
  match_ws_star_nl s = Some n ->
  exists ws r,
    s = ws ++ NL :: r /\ n = S (length ws) /\ match_ws_star_nl r = None.
Proof.
  revert n. induction s as [|c s IH]; intros n; cbn [match_ws_star_nl];
    [discriminate|].
  destruct (isspace c) eqn:Hc.
  - destruct (match_ws_star_nl s) as [k|] eqn:E.
    + intros [= <-]. destruct (IH k eq_refl) as (ws & r & -> & -> & Hr).
      now exists (c :: ws), r.
    + destruct (N.eqb_spec c NL) as [->|]; [|discriminate].
      intros [= <-]. now exists [], s.
  - now rewrite (nows_not_NL c Hc).
Qed.

Lemma match_blank_Some (c : char) (rest : str) (m : nat) :
  match_blank (c :: rest) = Some m ->
  c = NL /\
  exists ws r,
    rest = ws ++ NL :: r /\ m = S (S (length ws)) /\
    match_ws_star_nl r = None /\
    match_ws_star_nl (c :: rest) <> None.
Proof.
  cbn [match_blank]. destruct (N.eqb_spec c NL) as [->|]; [|discriminate].
  destruct (match_ws_star_nl rest) as [k|] eqn:E; [|discriminate].
  intros [= <-]. split; [reflexivity|].
  destruct (match_ws_star_nl_Some rest k E) as (ws & r & -> & -> & Hr).
  exists ws, r. repeat split; try assumption.
  cbn [match_ws_star_nl]. cbn [match_ws_star_nl] in E. rewrite isspace_NL, E.
  discriminate.
Qed.

Lemma match_blank_nows (c : char) (rest : str) :
  isspace c = false -> match_blank (c :: rest) = None.
Proof. intros Hc. cbn [match_blank]. now rewrite (nows_not_NL c Hc). Qed.

Lemma match_blank_before_nows (c d : char) (rest : str) :
  isspace d = false -> match_blank (c :: d :: rest) = None.
Proof.
  intros Hd. cbn [match_blank]. rewrite (match_ws_star_nl_nows d rest Hd).
  now destruct (c =? NL)%N.
Qed.

Lemma nonblank_app_l (a b : str) : nonblank a -> nonblank (a ++ b).
Proof. intros H. apply Exists_app. now left. Qed.

Lemma nonblank_snoc (a : str) (c : char) :
  isspace c = false -> nonblank (a ++ [c]).
Proof. intros H. apply Exists_app. right. now constructor. Qed.

(** Scanning a text that ends with a word character: every piece has a
    word, as soon as the piece being read has one or the text does not
    begin inside a separator. *)
Lemma re_split_scan_nonblank (n : nat) :
  forall (s cur : str),
    (length s <= n)%nat ->
    s = [] \/ ends_nonws s ->
    nonblank cur \/ (match_ws_star_nl s = None /\ s <> []) ->
    Forall nonblank (re_split_scan 0 cur s).
Proof.
  induction n as [|n IH]; intros s cur Hlen Hend Hcur.
  - destruct s; [|cbn [length] in Hlen; lia].
    cbn [re_split_scan]. constructor; [|constructor].
    destruct Hcur as [H|[_ H]]; [assumption | congruence].
  - destruct s as [|c rest].
    { cbn [re_split_scan]. constructor; [|constructor].
      destruct Hcur as [H|[_ H]]; [assumption | congruence]. }
    destruct Hend as [Hend|Hend]; [discriminate|].
    cbn [length] in Hlen. cbn [re_split_scan].
    destruct (match_blank (c :: rest)) as [m|] eqn:E.
    + destruct (match_blank_Some c rest m E)
        as (-> & ws & r & -> & -> & Hr & Hmatch).
      assert (Hnb : nonblank cur) by (destruct Hcur as [H|[H _]]; congruence).
      constructor; [assumption|].
      replace (ws ++ NL :: r) with ((ws ++ [NL]) ++ r)
        by now rewrite <- app_assoc.
      replace (S (length ws)) with (length (ws ++ [NL]))
        by (rewrite length_app; cbn [length]; lia).
      rewrite re_split_scan_skip.
      assert (Hne : r <> []).
      { intros ->. change (NL :: ws ++ [NL]) with ((NL :: ws) ++ [NL]) in Hend.
        apply ends_nonws_last in Hend. discriminate Hend. }
      apply IH.
      * rewrite length_app in Hlen. cbn [length] in Hlen. lia.
      * right. apply (ends_nonws_suffix (NL :: ws ++ [NL])); [|assumption].
        cbn [app]. now rewrite <- app_assoc.
      * right. now split.
    + apply IH; [lia | |].
      * destruct rest as [|d rest]; [now left | right].
        now apply (ends_nonws_suffix [c]).
      * destruct Hcur as [H|[H _]]; [left; now apply nonblank_app_l|].
        destruct (isspace c) eqn:Hc; [|left; now apply nonblank_snoc].
        right. split; [now apply (match_ws_star_nl_space c)|].
        intros ->. apply (ends_nonws_last []) in Hend. congruence.
Qed.

(** The paragraphs of a text that is not blank all have a word. *)
Lemma paragraphs_nonblank (s : str) :
  strip s <> [] -> Forall nonblank (re_split_blank (strip s)).
Proof.
  intros Hne. destruct (strip_cases s) as [E|[Hs He]]; [congruence|].
  unfold re_split_blank.
  apply (re_split_scan_nonblank (length (strip s))); [lia | now right |].
  right. split; [|assumption].
  destruct Hs as (c & r & -> & Hc). now apply match_ws_star_nl_nows.
Qed.

(** ** Lines without line boundaries *)

Lemma no_linebreak_word (w : str) : nows w -> no_linebreak w.
Proof. apply Forall_impl. exact nows_not_linebreak. Qed.

Lemma no_linebreak_spaces (n : Z) : no_linebreak (str_mul [SP] n).
Proof. rewrite str_mul_char. apply Forall_forall. now intros c ->%repeat_spec. Qed.

Lemma no_linebreak_join_SP (g : list str) :
  Forall no_linebreak g -> no_linebreak (join [SP] g).
Proof.
  induction 1 as [|x g Hx Hg IH]; [constructor|].
  destruct g as [|y g]; [assumption|].
  rewrite join_cons2. apply Forall_app. split; [assumption|].
  now constructor.
Qed.

Lemma no_linebreak_interleave (ws gs : list str) :
  Forall no_linebreak ws -> Forall no_linebreak gs ->
  no_linebreak (interleave ws gs).
Proof.
  intros Hws. revert gs.
  induction Hws as [|w ws Hw _ IH]; intros gs Hgs; [constructor|].
  cbn [interleave]. destruct Hgs as [|g gs Hg Hgs].
  - apply Forall_app. split; [assumption | apply IH; constructor].
  - apply Forall_app. split; [assumption|].
    apply Forall_app. split; [assumption | now apply IH].
Qed.

Lemma words_no_linebreak (ws : list str) :
  Forall is_word ws -> Forall no_linebreak ws.
Proof. apply Forall_impl. intros w [_ Hw]. now apply no_linebreak_word. Qed.

Lemma interleave_plain (ws gs : list str) :
  Forall is_word ws -> ws <> [] -> Forall no_linebreak gs ->
  plain_line (interleave ws gs).
Proof.
  intros Hws Hne Hgs. split.
  - destruct ws as [|w ws]; [congruence|].
    inversion Hws as [|? ? [Hw _] _]; subst.
    cbn [interleave]. destruct gs; destruct w; (congruence || discriminate).
  - apply no_linebreak_interleave; [now apply words_no_linebreak | assumption].
Qed.

(** A justified line of words is a line. *)
Lemma justify_line_plain (self : TextFormatter) (words : list str) (width : Z)
  (line : str) :
  Forall is_word words -> words <> [] ->
  justify_line self words width = Ok line -> plain_line line.
Proof.
  intros Hws Hne E.
  destruct (Nat.le_gt_cases 2 (length words)) as [Hn|Hn].
  - rewrite justify_line_interleave in E by assumption.
    injection E as <-. apply interleave_plain; try assumption.
    apply Forall_map, Forall_forall. intros k _. apply no_linebreak_spaces.
  - destruct words as [|w0 [|w1 r]]; [congruence | | cbn [length] in Hn; lia].
    cbn [justify_line] in E. injection E as <-.
    inversion Hws as [|? ? [Hw0 Hn0] _]; subst. split.
    + destruct w0; [congruence | discriminate].
    + apply Forall_app. split;
        [now apply no_linebreak_word | apply no_linebreak_spaces].
Qed.

Lemma mapM_Forall (A B : Type) (f : A -> result B)
  (P : A -> Prop) (Q : B -> Prop) :
  (forall x y, P x -> f x = Ok y -> Q y) ->
  forall l ys, Forall P l -> mapM f l = Ok ys -> Forall Q ys.
Proof.
  intros Hf l. induction l as [|x l IH]; intros ys Hl; cbn [mapM].
  - intros [= <-]. constructor.
  - inversion Hl as [|? ? Hx Hl']; subst.
    destruct (f x) as [y|] eqn:Ey; cbn [bind]; [|discriminate].
    destruct (mapM f l) as [ys'|] eqn:Eys; cbn [bind]; [|discriminate].
    intros [= <-]. constructor; [now apply (Hf x) | now apply IH].
Qed.

Lemma Forall_removelast (A : Type) (P : A -> Prop) (l : list A) :
  Forall P l -> Forall P (removelast l).
Proof.
  induction 1 as [|x l Hx Hl IH]; [constructor|].
  cbn [removelast]. destruct l; [constructor | now constructor].
Qed.

Lemma Forall_last (A : Type) (P : A -> Prop) (l : list A) (d : A) :
  l <> [] -> Forall P l -> P (last l d).
Proof.
  intros Hne Hl. revert Hne.
  induction Hl as [|x l Hx Hl IH]; intros Hne; [congruence|].
  destruct l as [|y l]; [assumption|]. apply IH. discriminate.
Qed.

Lemma tight_plain_SP (width : Z) (g : list str) :
  good_group width g -> plain_line (join [SP] g).
Proof.
  intros Hg. split.
  - destruct (tight_starts _ (good_group_tight width g Hg)) as (c & r & -> & _).
    discriminate.
  - destruct Hg as (_ & Hws & _).
    now apply no_linebreak_join_SP, words_no_linebreak.
Qed.

(** The lines of a paragraph that has a word: there is one at least, and
    each is a line. *)
Lemma paragraph_lines_plain (self : TextFormatter) (width : Z)
  (justify jl : bool) (p : str) (b : list str) :
  nonblank p ->
  paragraph_lines self width justify jl p = Ok b ->
  b <> [] /\ Forall plain_line b.
Proof.
  intros Hp. unfold paragraph_lines.
  set (p_clean := join [SP] (split p)).
  destruct (wrap_paragraph_groups self p_clean width)
    as (groups & Hwrap & Hcat & Hgood).
  assert (Hne : groups <> []).
  { intros ->. cbn [concat] in Hcat. unfold p_clean in Hcat.
    rewrite split_join_words in Hcat by (reflexivity || apply split_words).
    now apply (split_nonblank p Hp). }
  assert (Hlines : Forall (fun line => good_group width (split line)
                                        /\ join [SP] (split line) = line)
                     (wrap_paragraph self p_clean width)).
  { rewrite Hwrap. apply Forall_map. revert Hgood. apply Forall_impl.
    intros g Hg. now rewrite (good_group_split width g Hg). }
  destruct justify.
  - unfold justify_paragraph, enumerate.
    rewrite (justify_paragraph_loop self _ width jl _ 0 [])
      by first [lia | rewrite Hwrap; destruct groups; [congruence | discriminate]].
    destruct (mapM _ _) as [front|] eqn:Ef; cbn [bind]; [|discriminate].
    destruct (if jl then _ else _) as [last_line|] eqn:El; cbn [bind];
      [|discriminate].
    intros [= <-]. split; [now destruct front|].
    apply Forall_app. split.
    + revert Ef. apply mapM_Forall
        with (P := fun line => good_group width (split line)).
      * intros line out (Hgne & Hws & _). now apply justify_line_plain.
      * apply Forall_removelast. revert Hlines. apply Forall_impl. now intros l [H _].
    + constructor; [|constructor].
      assert (Hl : good_group width (split (last (wrap_paragraph self p_clean width) []))
                   /\ join [SP] (split (last (wrap_paragraph self p_clean width) []))
                      = last (wrap_paragraph self p_clean width) []).
      { apply (Forall_last _ (fun line => good_group width (split line)
                                          /\ join [SP] (split line) = line));
          [|assumption].
        rewrite Hwrap. destruct groups; [congruence | discriminate]. }
      destruct Hl as [Hg Hj]. destruct jl.
      * destruct Hg as (Hgne & Hws & _).
        now apply (justify_line_plain self _ width _ Hws Hgne).
      * injection El as <-. now apply (tight_plain_SP width).
  - intros [= <-]. split.
    + rewrite Hwrap. destruct groups; [congruence | discriminate].
    + rewrite Hwrap. apply Forall_map. revert Hgood. apply Forall_impl.
      exact (tight_plain_SP width).
Qed.



(** ** Splitting the formatted text into lines *)




(** What the two ways of cutting a text into lines have in common. *)
Section LineSplitter.

Variable splitter : str -> list str.

Hypothesis splitter_NL :
  forall l rest, no_linebreak l -> splitter (l ++ NL :: rest) = l :: splitter rest.

Hypothesis splitter_line :
  forall l, plain_line l -> splitter l = [l].




End LineSplitter.







(** ** Formatting a formatted text again *)

Lemma re_split_scan_nows (w rest cur : str) :
  nows w -> re_split_scan 0 cur (w ++ rest) = re_split_scan 0 (cur ++ w) rest.
Proof.
  intros H. revert cur.
  induction H as [|c w Hc _ IH]; intros cur; cbn [app].
  - now rewrite app_nil_r.
  - cbn [re_split_scan]. rewrite (match_blank_nows c _ Hc), IH, <- app_assoc.
    reflexivity.
Qed.

(** No separator of paragraphs begins inside words separated by single
    white-space characters, whatever follows them. *)
Lemma re_split_scan_tight (f rest : str) :
  tight f ->
  forall cur, re_split_scan 0 cur (f ++ rest) = re_split_scan 0 (cur ++ f) rest.
Proof.
  induction 1 as [w [_ Hw]|w c s [_ Hw] Hc Hs IH]; intros cur.
  - now apply re_split_scan_nows.
  - rewrite <- app_assoc, re_split_scan_nows by assumption.
    destruct (tight_starts s Hs) as (d & s' & E & Hd).
    cbn [app]. cbn [re_split_scan].
    replace (match_blank (c :: s ++ rest)) with (@None nat)
      by (rewrite E; cbn [app]; symmetry; now apply match_blank_before_nows).
    rewrite IH, <- !app_assoc. reflexivity.
Qed.

Lemma join_starts_ends (sep : str) (l : list str) :
  l <> [] ->
  Forall (fun s => starts_nonws s /\ ends_nonws s) l ->
  starts_nonws (join sep l) /\ ends_nonws (join sep l).
Proof.
  intros Hne Hl. revert Hne.
  induction Hl as [|x l [Hs He] Hl IH]; intros Hne; [congruence|].
  destruct l as [|y l]; [now split|].
  rewrite join_cons2. destruct IH as [_ IHe]; [discriminate|]. split.
  - now apply starts_nonws_app.
  - now apply ends_nonws_app, ends_nonws_app.
Qed.

Lemma tight_starts_ends (l : list str) :
  Forall tight l -> Forall (fun s => starts_nonws s /\ ends_nonws s) l.
Proof.
  apply Forall_impl. intros s Hs.
  split; [now apply tight_starts | now apply tight_ends].
Qed.

Lemma match_blank_NL_NL (d : char) (j : str) :
  isspace d = false -> match_blank (NL :: NL :: d :: j) = Some 2%nat.
Proof.
  intros Hd. cbn [match_blank match_ws_star_nl].
  now rewrite N.eqb_refl, isspace_NL, Hd, (nows_not_NL d Hd).
Qed.

Lemma re_split_scan_NL_NL (d : char) (j cur : str) :
  isspace d = false ->
  re_split_scan 0 cur (NL :: NL :: d :: j) = cur :: re_split_scan 0 [] (d :: j).
Proof.
  intros Hd.
  change (re_split_scan 0 cur (NL :: NL :: d :: j))
    with (match match_blank (NL :: NL :: d :: j) with
          | Some (S k) => cur :: re_split_scan k [] (NL :: d :: j)
          | _ => re_split_scan 0 (cur ++ [NL]) (NL :: d :: j)
          end).
  now rewrite (match_blank_NL_NL d j Hd).
Qed.

Lemma re_split_scan_nonempty (s : str) :
  forall k cur, re_split_scan k cur s <> [].
Proof.
  induction s as [|c s IH]; intros k cur; cbn [re_split_scan]; [discriminate|].
  destruct k; [|apply IH].
  destruct (match_blank (c :: s)) as [[|m]|]; (apply IH || discriminate).
Qed.

(** Paragraphs joined by [\n\n] are split back into the same paragraphs. *)
Lemma re_split_join_tight (fs : list str) :
  Forall tight fs -> fs <> [] -> re_split_blank (join [NL; NL] fs) = fs.
Proof.
  unfold re_split_blank.
  induction 1 as [|f fs Hf Hfs IH]; intros Hne; [congruence|].
  destruct fs as [|f' fs].
  - cbn [join]. rewrite <- (app_nil_r f) at 1.
    now rewrite re_split_scan_tight.
  - rewrite join_cons2, re_split_scan_tight by assumption.
    destruct (join_starts_ends [NL; NL] (f' :: fs)) as [(d & j & E & Hd) _];
      [discriminate | now apply tight_starts_ends |].
    specialize (IH ltac:(discriminate)). rewrite E in IH |- *.
    cbn [app]. rewrite re_split_scan_NL_NL by assumption.
    now rewrite IH.
Qed.

Lemma wrapped_paragraph_split (self : TextFormatter) (width : Z) (p : str) :
  split (wrapped_paragraph self width p) = split p.
Proof.
  unfold wrapped_paragraph.
  rewrite split_join, wrap_paragraph_words by reflexivity.
  apply split_join_words; [reflexivity | apply split_words].
Qed.

Lemma wrapped_paragraph_idem (self : TextFormatter) (width : Z) (p : str) :
  wrapped_paragraph self width (wrapped_paragraph self width p)
  = wrapped_paragraph self width p.
Proof.
  unfold wrapped_paragraph at 1 3.
  now rewrite wrapped_paragraph_split.
Qed.

Lemma wrapped_paragraph_tight (self : TextFormatter) (width : Z) (p : str) :
  nonblank p -> tight (wrapped_paragraph self width p).
Proof.
  intros Hp.
  destruct (paragraph_lines_plain self width false false p _ Hp eq_refl)
    as [Hne _].
  unfold wrapped_paragraph. apply tight_join; [reflexivity | assumption |].
  generalize (wrap_paragraph_lines self (join [SP] (split p)) width).
  apply Forall_impl. now intros line [H _].
Qed.

(** Without justification [format_text] wraps each paragraph. *)
Lemma format_text_wrap_only (self : TextFormatter) (text : str)
  (width : option Z) (jl : bool) :
  let w := match width with None => default_width self | Some w => w end in
  format_text self text width false jl
  = Ok (join [NL; NL]
          (map (wrapped_paragraph self w) (re_split_blank (strip text)))).
Proof.
  intros w. unfold format_text. fold w.
  assert (H : forall ps acc,
             foldM (format_text_step self w false jl) ps acc
             = Ok (acc ++ map (wrapped_paragraph self w) ps)).
  { induction ps as [|p ps IH]; intros acc; cbn [foldM map].
    - now rewrite app_nil_r.
    - unfold format_text_step at 1. cbn [bind].
      rewrite IH, <- app_assoc. reflexivity. }
  now rewrite H.
Qed.

(** Formatting without justification is idempotent, on every text. *)
Lemma format_text_wrap_twice (self : TextFormatter) (text : str)
  (width : option Z) (jl jl' : bool) :
  exists out,
    format_text self text width false jl = Ok out /\
    format_text self out width false jl' = Ok out.
Proof.
  eexists. split; [apply format_text_wrap_only|].
  rewrite format_text_wrap_only. cbv zeta. f_equal.
  set (w := match width with None => default_width self | Some w => w end).
  destruct (strip text) as [|c t] eqn:E.
  { reflexivity. }
  assert (Hnb : Forall nonblank (re_split_blank (strip text))).
  { apply paragraphs_nonblank. rewrite E. discriminate. }
  rewrite <- E.
  set (ps := re_split_blank (strip text)) in *.
  set (fs := map (wrapped_paragraph self w) ps).
  assert (Hne : fs <> []).
  { pose proof (re_split_scan_nonempty (strip text) 0 []) as Hps.
    fold (re_split_blank (strip text)) in Hps. fold ps in Hps.
    unfold fs. destruct ps; [congruence | discriminate]. }
  assert (Ht : Forall tight fs).
  { unfold fs. apply Forall_map. revert Hnb. apply Forall_impl.
    apply wrapped_paragraph_tight. }
  destruct (join_starts_ends [NL; NL] fs Hne (tight_starts_ends fs Ht))
    as [Hs He].
  rewrite (strip_fixed _ Hs He), (re_split_join_tight fs Ht Hne).
  unfold fs. rewrite map_map. f_equal. apply map_ext.
  apply wrapped_paragraph_idem.
Qed.

(** C9. Wrap-only formatting is idempotent: for a text [t] of one
    paragraph and a width [w >= 1], formatting without justification
    returns a text that formatting again at the same width leaves
    unchanged: [format_text(format_text(t, w), w) = format_text(t, w)]. *)
Theorem format_text_wrap_idempotent
  (self : TextFormatter) (t : str) (w : Z) (jl : bool) :
  length (re_split_blank (strip t)) = 1%nat ->
  1 <= w ->
  (out <- format_text self t (Some w) false jl ;;
   format_text self out (Some w) false jl)
  = format_text self t (Some w) false jl
  /\ exists out, format_text self t (Some w) false jl = Ok out.
Proof.
  intros _ _.
  destruct (format_text_wrap_twice self t (Some w) jl jl) as (out & H1 & H2).
  rewrite H1. cbn [bind]. split; [assumption | now exists out].
Qed.

Lemma format_text_wrap_idempotent_witness :
  let t := lit "  to be  or not" ++ [NL] ++ lit "to be " in
  length (re_split_blank (strip t)) = 1%nat /\
  format_text formatter t (Some 7) false false
  = Ok (lit "to be" ++ [NL] ++ lit "or not" ++ [NL] ++ lit "to be") /\
  (out <- format_text formatter t (Some 7) false false ;;
   format_text formatter out (Some 7) false false)
  = format_text formatter t (Some 7) false false.
Proof.
  intros t. split; [reflexivity|]. split; [reflexivity|].
  apply (format_text_wrap_idempotent formatter t 7 false); [reflexivity | lia].
Defined.

(** * Further properties of the justifier *)

Lemma interleave_empty_gaps (ws gs : list str) :
  Forall (fun g => g = []) gs -> interleave ws gs = concat ws.
Proof.
  revert gs. induction ws as [|w ws IH]; intros gs Hgs; [reflexivity|].
  cbn [interleave concat]. destruct Hgs as [|g gs -> Hgs].
  - now rewrite interleave_nil.
  - cbn [app]. now rewrite IH.
Qed.

(** When the words are longer than [width] together, every gap the loop
    computes is empty. *)
Lemma gap_strings_overflow (total_spaces gaps : Z) (n : nat) :
  1 <= gaps -> total_spaces < 0 ->
  Forall (fun g => g = [])
    (map (str_mul [SP])
       (gap_widths (total_spaces / gaps) (total_spaces mod gaps) 0 n)).
Proof.
  intros Hg Ht. apply Forall_map, Forall_forall. intros k Hk.
  apply str_mul_nonpos. unfold gap_widths in Hk.
  apply in_map_iff in Hk as (j & <- & _). unfold gap_width.
  assert (total_spaces / gaps < 0) by (apply Z.div_lt_upper_bound; lia).
  destruct (Z.of_nat j <? total_spaces mod gaps); lia.
Qed.

Lemma justify_line_concat_when_over
  (self : TextFormatter) (words : list str) (width : Z) :
  (2 <= length words)%nat ->
  width < sum (map len words) ->
  justify_line self words width = Ok (concat words).
Proof.
  intros Hn Hover. rewrite justify_line_interleave by assumption.
  rewrite interleave_empty_gaps; [reflexivity|].
  apply gap_strings_overflow; [unfold len|]; lia.
Qed.

Lemma justify_line_len_max
  (self : TextFormatter) (words : list str) (width : Z) :
  words <> [] ->
  exists line,
    justify_line self words width = Ok line /\
    len line = Z.max width (sum (map len words)).
Proof.
  intros Hne. destruct words as [|w0 [|w1 r]]; [congruence | |].
  - eexists. split; [reflexivity|].
    rewrite len_app, len_str_mul. cbn [map]. rewrite sum_cons, sum_nil. lia.
  - set (words := w0 :: w1 :: r).
    assert (Hn : (2 <= length words)%nat) by (cbn [words length]; lia).
    destruct (Z.le_gt_cases (sum (map len words)) width) as [Hfit|Hover].
    + destruct (justify_line_len self words width Hn Hfit) as (line & E & Hl).
      exists line. split; [assumption | lia].
    + exists (concat words).
      split; [now apply justify_line_concat_when_over|].
      rewrite len_concat. lia.
Qed.










(** Without room the words can merge: with [total_spaces] below the number
    of gaps some gap is empty. *)
Example justify_line_merges_words :
  justify_line formatter [lit "a"; lit "b"; lit "c"] 4 = Ok (lit "a bc").
Proof. reflexivity. Qed.

(** * Further properties of the paragraph formatter *)




(** The lines of the wrapper are the single-space joins of their words. *)
Lemma wrap_paragraph_good_lines
  (self : TextFormatter) (paragraph : str) (width : Z) :
  Forall (fun line => good_group width (split line)
                      /\ join [SP] (split line) = line)
    (wrap_paragraph self paragraph width).
Proof.
  destruct (wrap_paragraph_groups self paragraph width)
    as (groups & -> & _ & Hgood).
  apply Forall_map. revert Hgood. apply Forall_impl.
  intros g Hg. now rewrite (good_group_split width g Hg).
Qed.









(** * Further properties of the wrapper *)

Lemma chain_tail (A : Type) (R : A -> A -> Prop) (x : A) (l : list A) :
  chain R (x :: l) -> chain R l.
Proof. intros H. inversion H; subst; [constructor | assumption]. Qed.

Lemma chain_snoc (A : Type) (R : A -> A -> Prop) (l : list A) (x y : A) :
  chain R (l ++ [x]) -> R x y -> chain R (l ++ [x; y]).
Proof.
  intros H Hxy. induction l as [|a l IH]; cbn [app] in *.
  - constructor; [assumption | constructor].
  - specialize (IH (chain_tail _ _ _ _ H)).
    destruct l as [|b l]; cbn [app] in *.
    + inversion H; subst. now constructor.
    + inversion H; subst. now constructor.
Qed.

Lemma chain_replace_last (A : Type) (R : A -> A -> Prop)
  (l : list A) (x x' : A) :
  chain R (l ++ [x]) -> (forall y, R y x -> R y x') -> chain R (l ++ [x']).
Proof.
  intros H Hx. induction l as [|a l IH]; cbn [app] in *; [constructor|].
  specialize (IH (chain_tail _ _ _ _ H)).
  destruct l as [|b l]; cbn [app] in *.
  - inversion H; subst. constructor; [now apply Hx | constructor].
  - inversion H; subst. now constructor.
Qed.

Lemma chain_app_inv (A : Type) (R : A -> A -> Prop)
  (pre post : list A) (x y : A) :
  chain R (pre ++ x :: y :: post) -> R x y.
Proof.
  induction pre as [|a pre IH]; cbn [app]; intros H.
  - now inversion H.
  - apply IH. now apply chain_tail in H.
Qed.

Lemma wrap_step_greedy (width : Z) (done : list str) st (w : str) :
  is_word w -> wrap_greedy_inv width done st ->
  wrap_greedy_inv width (done ++ [w]) (wrap_step width st w).
Proof.
  destruct st as [[lines current] curr_len].
  intros Hw (groups & Hlines & Hgroups & Hdone & Hcur & Hzero & Hlen & Hchain).
  assert (Hw1 : Forall is_word [w]) by (repeat constructor; apply Hw).
  unfold wrap_step.
  destruct (Z.eqb_spec curr_len 0) as [E|E].
  - assert (current = []) as ->.
    { destruct current as [|x l]; [reflexivity|].
      specialize (Hlen ltac:(discriminate)).
      pose proof (len_join_words_pos SP (x :: l) Hcur ltac:(discriminate)). lia. }
    destruct Hzero as [_ ->]; [reflexivity|].
    exists []. cbn [app concat] in *. subst done lines.
    split; [reflexivity|]. split; [constructor|]. split; [reflexivity|].
    split; [assumption|]. split; [discriminate|].
    split; [reflexivity | constructor].
  - assert (Hne : current <> []) by (intros ->; now apply E, Hzero).
    specialize (Hlen Hne).
    destruct (Z.leb_spec (curr_len + 1 + len w) width) as [L|L].
    + exists groups.
      split; [assumption|]. split; [assumption|].
      split; [rewrite <- Hdone; now rewrite app_assoc|].
      split; [apply Forall_app; now split|].
      split; [intros H; now apply app_eq_nil in H as [_ H]|].
      split.
      * intros _.
        rewrite join_snoc, !len_app, len_cons, len_nil by assumption. lia.
      * apply (chain_replace_last _ _ groups current); [assumption|].
        intros g Hg. destruct current; [congruence | exact Hg].
    + exists (groups ++ [current]).
      split; [rewrite map_app; cbn [map]; now rewrite Hlines|].
      split; [apply Forall_app; split; [assumption | now repeat constructor]|].
      split; [rewrite concat_app; cbn [concat]; rewrite app_nil_r;
              now rewrite Hdone|].
      split; [assumption|]. split; [discriminate|].
      split; [reflexivity|].
      rewrite <- app_assoc. cbn [app]. apply chain_snoc; [assumption|].
      cbn [no_room]. lia.
Qed.

Lemma wrap_loop_greedy (width : Z) (ws done : list str) st :
  Forall is_word ws -> wrap_greedy_inv width done st ->
  wrap_greedy_inv width (done ++ ws) (fold_left (wrap_step width) ws st).
Proof.
  intros Hws. revert done st.
  induction Hws as [|w ws Hw _ IH]; intros done st Hinv; cbn [fold_left].
  - now rewrite app_nil_r.
  - replace (done ++ w :: ws) with ((done ++ [w]) ++ ws)
      by now rewrite <- app_assoc.
    apply IH. now apply wrap_step_greedy.
Qed.

(** The groups of words of the lines of [wrap_paragraph]: a line ends
    where the next word has no room. *)
Lemma wrap_paragraph_greedy_groups
  (self : TextFormatter) (paragraph : str) (width : Z) :
  exists groups,
    wrap_paragraph self paragraph width = map (join [SP]) groups /\
    Forall (fun g => g <> [] /\ Forall is_word g) groups /\
    concat groups = split paragraph /\
    chain (no_room width) groups.
Proof.
  unfold wrap_paragraph.
  assert (H0 : wrap_greedy_inv width [] ([], [], 0)).
  { exists []. split; [reflexivity|]. split; [constructor|].
    split; [reflexivity|]. split; [constructor|].
    split; [now split|]. split; [congruence | constructor]. }
  pose proof (wrap_loop_greedy width (split paragraph) [] ([], [], 0)
                (split_words paragraph) H0) as H.
  cbn [app] in H.
  destruct (fold_left (wrap_step width) (split paragraph) ([], [], 0))
    as [[lines current] curr_len].
  destruct H as (groups & Hlines & Hgroups & Hdone & Hcur & Hzero & _ & Hchain).
  destruct current as [|x l].
  - destruct Hzero as [_ ->]; [reflexivity|].
    exists []. cbn [app concat] in Hdone. subst lines.
    split; [reflexivity|]. split; [constructor|].
    split; [assumption | constructor].
  - exists (groups ++ [x :: l]).
    split; [rewrite map_app; cbn [map]; now rewrite Hlines|].
    split; [apply Forall_app; split; [assumption|];
            constructor; [split; [discriminate | assumption] | constructor]|].
    split; [rewrite concat_app; cbn [concat]; now rewrite app_nil_r|].
    assumption.
Qed.

(** X6. The wrapper is greedy: where a line [l1] is followed by a line
    [l2], the first word of [l2] did not fit at the end of [l1] ([l1], a
    space and that word are longer than [width]). *)
Theorem wrap_paragraph_is_greedy
  (self : TextFormatter) (paragraph : str) (width : Z)
  (pre post : list str) (l1 l2 w : str) (ws : list str) :
  wrap_paragraph self paragraph width = pre ++ l1 :: l2 :: post ->
  split l2 = w :: ws ->
  width < len l1 + 1 + len w.
Proof.
  destruct (wrap_paragraph_greedy_groups self paragraph width)
    as (groups & -> & Hgroups & _ & Hchain).
  intros E Hl2.
  apply map_eq_app in E as (gpre & grest & -> & _ & E).
  apply map_eq_cons in E as (g1 & grest' & -> & <- & E).
  apply map_eq_cons in E as (g2 & gpost & -> & <- & _).
  apply chain_app_inv in Hchain.
  apply Forall_app in Hgroups as [_ Hgroups].
  inversion Hgroups as [|? ? _ Hgroups']; subst.
  inversion Hgroups' as [|? ? [_ Hg2] _]; subst.
  rewrite split_join_words in Hl2 by (reflexivity || assumption).
  subst g2. exact Hchain.
Qed.

Lemma wrap_paragraph_is_greedy_witness :
  wrap_paragraph formatter (lit "aaa bbb ccc ddd") 7
  = [] ++ lit "aaa bbb" :: lit "ccc ddd" :: [] /\
  7 < len (lit "aaa bbb") + 1 + len (lit "ccc").
Proof.
  split; [reflexivity|].
  apply (wrap_paragraph_is_greedy formatter (lit "aaa bbb ccc ddd") 7
           [] [] (lit "aaa bbb") (lit "ccc ddd") (lit "ccc") [lit "ddd"]);
    reflexivity.
Defined.

Lemma length_concat_nonempty (A : Type) (groups : list (list A)) :
  Forall (fun g => g <> []) groups ->
  (length groups <= length (concat groups))%nat.
Proof.
  induction 1 as [|g groups Hg _ IH]; [reflexivity|].
  cbn [concat length]. rewrite length_app.
  destruct g; [congruence | cbn [length]; lia].
Qed.

(** X7. [wrap_paragraph] returns no line exactly when the paragraph has no
    word; it never returns an empty line, and never more lines than the
    paragraph has words. *)
Theorem wrap_paragraph_line_count
  (self : TextFormatter) (paragraph : str) (width : Z) :
  (wrap_paragraph self paragraph width = [] <-> split paragraph = []) /\
  Forall (fun line => line <> []) (wrap_paragraph self paragraph width) /\
  (length (wrap_paragraph self paragraph width)
   <= length (split paragraph))%nat.
Proof.
  destruct (wrap_paragraph_groups self paragraph width)
    as (groups & -> & <- & Hgood).
  assert (Hne : Forall (fun g : list (list N) => g <> []) groups).
  { revert Hgood. apply Forall_impl. now intros g [H _]. }
  split; [|split].
  - split.
    + intros E. apply map_eq_nil in E. now subst.
    + intros E. destruct Hne as [|g groups Hg _]; [reflexivity|].
      cbn [concat] in E. apply app_eq_nil in E as [E _]. congruence.
  - apply Forall_map. revert Hgood. apply Forall_impl. intros g Hg.
    destruct (tight_plain_SP width g Hg) as [H _]. exact H.
  - rewrite length_map. now apply length_concat_nonempty.
Qed.

Lemma sum_len_nonneg (l : list str) : 0 <= sum (map len l).
Proof. rewrite <- len_concat. apply len_nonneg. Qed.

Lemma len_join_prefix (a b : list str) (w : str) :
  a <> [] ->
  len (join [SP] a) + 1 + len w <= len (join [SP] (a ++ w :: b)).
Proof.
  intros Ha. rewrite !len_join by (assumption || now destruct a).
  rewrite map_app, sum_app, len_app. cbn [map]. rewrite sum_cons, len_cons.
  pose proof (sum_len_nonneg b). pose proof (len_nonneg _ b). lia.
Qed.

(** A paragraph whose words fit in one line is wrapped into that line. *)
Lemma wrap_paragraph_fits
  (self : TextFormatter) (paragraph : str) (width : Z) :
  split paragraph <> [] ->
  len (join [SP] (split paragraph)) <= width ->
  wrap_paragraph self paragraph width = [join [SP] (split paragraph)].
Proof.
  intros Hne Hfit.
  destruct (wrap_paragraph_greedy_groups self paragraph width)
    as (groups & -> & Hgroups & Hcat & Hchain).
  destruct groups as [|g1 [|g2 rest]].
  - cbn [concat] in Hcat. congruence.
  - cbn [concat] in Hcat. rewrite app_nil_r in Hcat. now subst.
  - exfalso. inversion Hchain as [| |? ? ? Hroom _]; subst.
    inversion Hgroups as [|? ? [Hg1 _] Hrest]; subst.
    inversion Hrest as [|? ? [Hg2 _] _]; subst.
    destruct g2 as [|w ws]; [congruence|]. cbn [no_room] in Hroom.
    rewrite <- Hcat in Hfit. cbn [concat app] in Hfit.
    pose proof (len_join_prefix g1 (ws ++ concat rest) w Hg1). lia.
Qed.

(** X8. When the words of the paragraph, joined by single spaces, are at
    most [width] long, [wrap_paragraph] returns that one line. *)
Theorem wrap_paragraph_single_line
  (self : TextFormatter) (paragraph : str) (width : Z) :
  split paragraph <> [] ->
  len (join [SP] (split paragraph)) <= width ->
  wrap_paragraph self paragraph width = [join [SP] (split paragraph)] /\
  split (join [SP] (split paragraph)) = split paragraph.
Proof.
  intros Hne Hfit. split; [now apply wrap_paragraph_fits|].
  apply split_join_words; [reflexivity | apply split_words].
Qed.

Lemma wrap_paragraph_single_line_witness :
  wrap_paragraph formatter (lit " Linha  de exemplo ") 40
  = [join [SP] (split (lit " Linha  de exemplo "))] /\
  split (join [SP] (split (lit " Linha  de exemplo ")))
  = split (lit " Linha  de exemplo ").
Proof.
  apply (wrap_paragraph_single_line formatter (lit " Linha  de exemplo ") 40).
  - vm_compute. discriminate.
  - vm_compute. discriminate.
Defined.

Lemma len_le_sum_words (g : list str) :
  Forall is_word g -> len g <= sum (map len g).
Proof.
  induction 1 as [|w g [Hw _] _ IH]; [reflexivity|].
  cbn [map]. rewrite sum_cons, len_cons. pose proof (len_pos _ w Hw). lia.
Qed.

Lemma map_join_singletons (groups : list (list str)) :
  Forall (fun g => exists w, g = [w]) groups ->
  map (join [SP]) groups = concat groups.
Proof.
  induction 1 as [|g groups [w ->] _ IH]; [reflexivity|].
  cbn [map concat join app]. now rewrite IH.
Qed.

(** X9. At a width of two or less (zero and negative widths included) no
    two words fit on a line: [wrap_paragraph] returns the words of the
    paragraph, one per line. *)
Theorem wrap_paragraph_narrow
  (self : TextFormatter) (paragraph : str) (width : Z) :
  width <= 2 ->
  wrap_paragraph self paragraph width = split paragraph.
Proof.
  intros Hw.
  destruct (wrap_paragraph_groups self paragraph width)
    as (groups & -> & <- & Hgood).
  apply map_join_singletons. revert Hgood. apply Forall_impl.
  intros g (Hne & Hws & [Hfit|Hone]); [|assumption].
  rewrite len_join in Hfit by assumption.
  pose proof (len_le_sum_words g Hws).
  destruct g as [|w [|w' r]]; [congruence | now exists w |].
  rewrite !len_cons in *. pose proof (len_nonneg _ r). lia.
Qed.

Lemma wrap_paragraph_narrow_witness :
  wrap_paragraph formatter (lit "a b  c") (-1) = split (lit "a b  c").
Proof. apply (wrap_paragraph_narrow formatter (lit "a b  c") (-1)). lia. Defined.

Lemma wrap_paragraph_one_word (self : TextFormatter) (w : str) (width : Z) :
  is_word w -> wrap_paragraph self w width = [w].
Proof.
  intros Hw. unfold wrap_paragraph. rewrite (split_word w Hw). reflexivity.
Qed.

(** X10. Wrapping is stable on its own lines: each line returned by
    [wrap_paragraph], wrapped again at the same width, is returned as the
    only line, unchanged. *)
Theorem wrap_paragraph_line_fixed
  (self : TextFormatter) (paragraph : str) (width : Z) (line : str) :
  In line (wrap_paragraph self paragraph width) ->
  wrap_paragraph self line width = [line].
Proof.
  intros Hin.
  destruct (proj1 (Forall_forall _ _)
              (wrap_paragraph_good_lines self paragraph width) line Hin)
    as [(Hne & Hws & [Hfit|[w Hw]]) Hj].
  - rewrite <- Hj at 2. apply wrap_paragraph_fits; assumption.
  - rewrite Hw in Hj, Hws. cbn [join] in Hj. subst line.
    apply wrap_paragraph_one_word. now inversion Hws.
Qed.

Lemma wrap_paragraph_line_fixed_witness :
  In (lit "ab cd") (wrap_paragraph formatter (lit "ab cd abcdefghij e") 5) /\
  wrap_paragraph formatter (lit "ab cd") 5 = [lit "ab cd"].
Proof.
  assert (H : In (lit "ab cd")
                (wrap_paragraph formatter (lit "ab cd abcdefghij e") 5))
    by (vm_compute; now left).
  split; [exact H|].
  exact (wrap_paragraph_line_fixed formatter (lit "ab cd abcdefghij e") 5
           (lit "ab cd") H).
Defined.

(** * Further properties of the formatter and of the endpoint *)
















(** ** The output depends on the words of the paragraphs only *)

Lemma format_text_loop_words (self : TextFormatter) (width : Z)
  (justify jl : bool) (ps ps' : list str) :
  map split ps = map split ps' ->
  forall acc,
    foldM (format_text_step self width justify jl) ps acc
    = foldM (format_text_step self width justify jl) ps' acc.
Proof.
  revert ps'. induction ps as [|p ps IH]; intros [|p' ps'] E acc;
    try discriminate; [reflexivity|].
  cbn [map] in E. injection E as Ep Eps. cbn [foldM].
  unfold format_text_step at 1 3. rewrite Ep.
  destruct (if justify then _ else _) as [ls|]; cbn [bind]; [|reflexivity].
  now apply IH.
Qed.

(** X14. [format_text] reads its input through the words of its
    paragraphs only: two texts with the same paragraphs of words (whatever
    white space separates the words) are formatted alike. *)
Theorem format_text_words_only (self : TextFormatter) (text text' : str)
  (width : option Z) (justify jl : bool) :
  paragraph_words text = paragraph_words text' ->
  format_text self text width justify jl
  = format_text self text' width justify jl.
Proof.
  intros E. unfold format_text.
  now rewrite (format_text_loop_words self _ justify jl
                 (re_split_blank (strip text)) (re_split_blank (strip text')) E).
Qed.

Lemma format_text_words_only_witness :
  format_text formatter (lit "to   be" ++ [NL; 9%N] ++ lit "or" ++ [NL; SP; NL]
                         ++ lit " not") (Some 5) true false
  = format_text formatter (lit "to be or" ++ [NL; NL] ++ lit "not")
      (Some 5) true false.
Proof.
  apply (format_text_words_only formatter). reflexivity.
Defined.

(** ** White space around the text *)

Lemma lstrip_blank_app (ws s : str) : blank ws -> lstrip (ws ++ s) = lstrip s.
Proof.
  induction 1 as [|c ws Hc _ IH]; [reflexivity|].
  cbn [app lstrip]. now rewrite Hc.
Qed.

Lemma lstrip_app_starts (s x : str) :
  starts_nonws (lstrip s) -> lstrip (s ++ x) = lstrip s ++ x.
Proof.
  induction s as [|c s IH]; cbn [app lstrip].
  - intros (d & r & E & _). discriminate.
  - destruct (isspace c); [exact IH | reflexivity].
Qed.

Lemma lstrip_nil_blank (s : str) : lstrip s = [] -> blank s.
Proof.
  induction s as [|c s IH]; [constructor|]. cbn [lstrip].
  destruct (isspace c) eqn:Hc; [|discriminate].
  intros E. constructor; [assumption | now apply IH].
Qed.

Lemma blank_rev (ws : str) : blank ws -> blank (rev ws).
Proof. apply Forall_rev. Qed.

Lemma rstrip_app_blank (s ws : str) : blank ws -> rstrip (s ++ ws) = rstrip s.
Proof.
  intros H. unfold rstrip.
  now rewrite rev_app_distr, lstrip_blank_app by now apply blank_rev.
Qed.

Lemma strip_surrounded (ws1 s ws2 : str) :
  blank ws1 -> blank ws2 -> strip (ws1 ++ s ++ ws2) = strip s.
Proof.
  intros H1 H2. unfold strip. rewrite lstrip_blank_app by assumption.
  destruct (lstrip_cases s) as [E|Hs].
  - rewrite E. rewrite lstrip_blank; [reflexivity|].
    apply Forall_app. split; [now apply lstrip_nil_blank | assumption].
  - rewrite lstrip_app_starts by assumption. now apply rstrip_app_blank.
Qed.

(** X15. White space before and after the text is ignored: a text
    surrounded by white space is formatted as the text alone. *)
Theorem format_text_ignores_surrounding_space
  (self : TextFormatter) (ws1 text ws2 : str)
  (width : option Z) (justify jl : bool) :
  blank ws1 -> blank ws2 ->
  format_text self (ws1 ++ text ++ ws2) width justify jl
  = format_text self text width justify jl.
Proof.
  intros H1 H2. unfold format_text.
  now rewrite strip_surrounded.
Qed.

Lemma format_text_ignores_surrounding_space_witness :
  format_text formatter ([NL; NL; SP] ++ lit "to be" ++ [SP; NL; NL; NL])
    (Some 4) false false
  = format_text formatter (lit "to be") (Some 4) false false.
Proof.
  apply (format_text_ignores_surrounding_space formatter);
    repeat constructor.
Defined.

(** ** Formatting a formatted text, in any mode *)















Example format_text_rejustify :
  let t := lit "to be or not to be" ++ [NL; NL] ++ lit "that is" in
  exists out,
    format_text formatter t (Some 9) true true = Ok out /\
    out = lit "to  be or" ++ [NL] ++ lit "not to be" ++ [NL; NL]
          ++ lit "that   is" /\
    format_text formatter out (Some 6) false false
    = format_text formatter t (Some 6) false false.
Proof. eexists. repeat split. Qed.

(** ** A line that is already full *)

Lemma gap_widths_S (base_space extra : Z) (i n : nat) :
  gap_widths base_space extra i (S n)
  = gap_width base_space extra (Z.of_nat i)
    :: gap_widths base_space extra (S i) n.
Proof. reflexivity. Qed.

Lemma interleave_cons (w g : str) (ws gs : list str) :
  interleave (w :: ws) (g :: gs) = w ++ g ++ interleave ws gs.
Proof. reflexivity. Qed.

Lemma interleave_single_spaces (ws : list str) :
  ws <> [] ->
  forall i,
    interleave ws (map (str_mul [SP]) (gap_widths 1 0 i (length ws - 1)))
    = join [SP] ws.
Proof.
  induction ws as [|w [|y r] IH]; intros Hne i; [congruence | |].
  - cbn. apply app_nil_r.
  - replace (length (w :: y :: r) - 1)%nat with (S (length (y :: r) - 1))
      by (cbn [length]; lia).
    rewrite gap_widths_S, map_cons, interleave_cons.
    rewrite (IH ltac:(discriminate)), join_cons2. do 2 f_equal.
    unfold gap_width.
    replace (Z.of_nat i <? 0) with false by (symmetry; apply Z.ltb_ge; lia).
    reflexivity.
Qed.

(** X17. A line that is already [width] long is left as it is: on words
    whose single-space join has length [width], [justify_line] returns
    that join. *)
Theorem justify_line_full_line
  (self : TextFormatter) (words : list str) (width : Z) :
  words <> [] ->
  len (join [SP] words) = width ->
  justify_line self words width = Ok (join [SP] words).
Proof.
  intros Hne Hw. destruct (Nat.le_gt_cases 2 (length words)) as [Hn|Hn].
  - rewrite justify_line_interleave by assumption.
    rewrite len_join in Hw by assumption.
    assert (Hg : 1 <= len words - 1) by (unfold len; lia).
    replace (width - sum (map len words)) with (len words - 1) by lia.
    rewrite Z.div_same, Z.mod_same by lia.
    now rewrite interleave_single_spaces.
  - destruct words as [|w [|w' r]]; [congruence | | cbn [length] in Hn; lia].
    cbn [join] in *. cbn [justify_line].
    now rewrite str_mul_nonpos, app_nil_r by lia.
Qed.

Lemma justify_line_full_line_witness :
  justify_line formatter [lit "ccc"; lit "ddd"] 7 = Ok (lit "ccc ddd").
Proof.
  apply (justify_line_full_line formatter [lit "ccc"; lit "ddd"] 7).
  - discriminate.
  - reflexivity.
Defined.

(** * The exceptions of the code: repetition as CPython bounds it *)

(** ** Results and exceptions *)

Lemma refines_eq (A : Type) (E : exn -> Prop) (r r' : result A) :
  (forall e, ~ E e) -> refines E r r' -> r = r'.
Proof. intros HE [H|(e & He & _)]; [assumption | now apply HE in He]. Qed.

Lemma refines_impl (A : Type) (E E' : exn -> Prop) (r r' : result A) :
  (forall e, E e -> E' e) -> refines E r r' -> refines E' r r'.
Proof.
  intros HE [H|(e & He & H)]; [now left | right].
  exists e. split; [now apply HE | assumption].
Qed.

Lemma refines_bind (A B : Type) (E : exn -> Prop)
  (r r' : result A) (k k' : A -> result B) :
  refines E r r' ->
  (forall a, r' = Ok a -> refines E (k a) (k' a)) ->
  refines E (bind r k) (bind r' k').
Proof.
  intros [->|(e & He & ->)] Hk.
  - destruct r' as [a|e]; cbn [bind]; [now apply Hk | now left].
  - right. now exists e.
Qed.

Lemma foldM_refines (A B : Type) (E : exn -> Prop)
  (body body' : A -> B -> result A) (l : list B) :
  (forall acc x, In x l -> refines E (body acc x) (body' acc x)) ->
  forall acc, refines E (foldM body l acc) (foldM body' l acc).
Proof.
  induction l as [|x l IH]; intros H acc; cbn [foldM]; [now left|].
  apply refines_bind; [apply H; now left|].
  intros a _. apply IH. intros acc' y Hy. apply H. now right.
Qed.

Lemma only_raises_bind (A B : Type) (E : exn -> Prop)
  (r : result A) (k : A -> result B) :
  only_raises E r -> (forall a, only_raises E (k a)) ->
  only_raises E (bind r k).
Proof.
  intros Hr Hk e. destruct r as [a|e']; cbn [bind].
  - apply Hk.
  - intros [= <-]. now apply Hr.
Qed.

Lemma only_raises_Ok (A : Type) (E : exn -> Prop) (a : A) :
  only_raises E (Ok a).
Proof. intros e H. discriminate H. Qed.

Lemma only_raises_foldM (A B : Type) (E : exn -> Prop)
  (body : A -> B -> result A) (l : list B) :
  (forall acc x, only_raises E (body acc x)) ->
  forall acc, only_raises E (foldM body l acc).
Proof.
  intros H. induction l as [|x l IH]; intros acc; cbn [foldM].
  - apply only_raises_Ok.
  - apply only_raises_bind; [apply H | exact IH].
Qed.

(** ** The repetition *)

Lemma ssize_bounds : CPython.ssize_min = - 2 ^ 63 /\ CPython.ssize_max = 2 ^ 63 - 1.
Proof. split; reflexivity. Qed.


Lemma str_mul_checked_nonpos (ca : Z -> bool) (s : str) (n : Z) :
  CPython.ssize_min <= n <= 0 ->
  CPython.str_mul ca s n = Ok [].
Proof.
  intros H. unfold CPython.str_mul.
  assert (CPython.ssize_max = 2 ^ 63 - 1) by reflexivity.
  destruct (Z.ltb_spec n CPython.ssize_min); [lia|].
  destruct (Z.ltb_spec CPython.ssize_max n); [lia|].
  destruct (Z.ltb_spec n 1); [reflexivity | lia].
Qed.

Lemma str_mul_one (s : str) : str_mul s 1 = s.
Proof. unfold str_mul. cbn. apply app_nil_r. Qed.

(** A count in the index range: the spaces, unless the allocation fails. *)
Lemma str_mul_checked_refines (ca : Z -> bool) (width n : Z) :
  CPython.ssize_min <= n -> width <= CPython.ssize_max ->
  (1 <= n -> n <= width) ->
  refines (alloc_fails ca width)
    (CPython.str_mul ca [SP] n) (Ok (str_mul [SP] n)).
Proof.
  intros Hlo Hhi Hn. unfold CPython.str_mul.
  assert (Hmax : 1 <= CPython.ssize_max) by discriminate.
  destruct (Z.ltb_spec n CPython.ssize_min); [lia|].
  destruct (Z.ltb_spec CPython.ssize_max n); [lia|].
  cbn [orb]. destruct (Z.ltb_spec n 1).
  { left. cbn [orb]. now rewrite str_mul_nonpos by lia. }
  change (len [SP]) with 1. cbn [orb Z.eqb].
  destruct (Z.eqb_spec n 1) as [->|]; [left; now rewrite str_mul_one|].
  destruct (Z.ltb_spec (CPython.ssize_max / n) 1) as [Hdiv|_].
  { exfalso. assert (1 <= CPython.ssize_max / n); [|lia].
    apply Z.div_le_lower_bound; lia. }
  rewrite Z.mul_1_r. destruct (ca n) eqn:Hca; [now left | right].
  exists MemoryError. split; [|reflexivity].
  split; [reflexivity|]. exists n. split; [lia | assumption].
Qed.

Lemma str_mul_checked_errors (ca : Z -> bool) (s : str) (n : Z) :
  only_raises repetition_error (CPython.str_mul ca s n).
Proof.
  intros e. unfold CPython.str_mul, repetition_error.
  repeat match goal with
         | |- context [if ?b then _ else _] => destruct b
         end; intros [= <-]; auto.
Qed.

(** ** [justify_line] with the bounded repetition *)

Lemma enumerate_from_In (A : Type) (l : list A) :
  forall (k i : Z) (x : A),
    In (i, x) (enumerate_from k l) ->
    In x l /\ exists j, (j < length l)%nat /\ i = k + Z.of_nat j.
Proof.
  induction l as [|y l IH]; intros k i x; cbn [enumerate_from In length];
    [contradiction|].
  intros [[= <- <-]|H].
  - split; [now left|]. exists 0%nat. split; lia.
  - destruct (IH _ _ _ H) as (Hin & j & Hj & ->).
    split; [now right|]. exists (S j). split; lia.
Qed.

Lemma justify_loop_refines (E : exn -> Prop) (ca : Z -> bool)
  (gaps base_space extra : Z) (l : list (Z * list N)) :
  (forall i w, In (i, w) l -> i < gaps ->
     refines E (CPython.str_mul ca [SP] (gap_width base_space extra i))
       (Ok (str_mul [SP] (gap_width base_space extra i)))) ->
  forall parts,
    refines E
      (foldM (CPython.justify_step ca gaps base_space extra) l parts)
      (Ok (fold_left (justify_step gaps base_space extra) l parts)).
Proof.
  induction l as [|[i w] l IH]; intros H parts; cbn [foldM fold_left];
    [now left|].
  assert (IH' := IH (fun i' w' Hin => H i' w' (or_intror Hin))).
  unfold CPython.justify_step at 1. unfold justify_step at 2.
  destruct (Z.ltb_spec i gaps) as [Hi|Hi]; cbn [bind]; [|apply IH'].
  pose proof (H i w (or_introl eq_refl) Hi) as Hs.
  unfold gap_width in Hs. cbv zeta.
  destruct Hs as [Hs|(e & He & Hs)]; rewrite Hs; cbn [bind];
    [apply IH' | right; now exists e].
Qed.

(** [justify_line] with the bounded repetition gives the same line, as far
    as its repetitions give the same spaces. *)
Lemma justify_line_refines_counts (E : exn -> Prop) (ca : Z -> bool)
  (self : TextFormatter) (words : list str) (width : Z) :
  Forall (fun n => refines E (CPython.str_mul ca [SP] n) (Ok (str_mul [SP] n)))
    (repetition_counts words width) ->
  refines E (CPython.justify_line ca self words width)
    (justify_line self words width).
Proof.
  intros H. destruct words as [|w0 [|w1 r]].
  - now left.
  - cbn [repetition_counts] in H. apply Forall_inv in H.
    unfold CPython.justify_line, justify_line.
    destruct H as [Hs|(e & He & Hs)]; rewrite Hs; cbn [bind];
      [now left | right; now exists e].
  - set (words := w0 :: w1 :: r) in *.
    unfold CPython.justify_line, justify_line. fold words.
    cbv zeta. unfold divmod.
    assert (Hlen : length words = S (S (length r))) by reflexivity.
    assert (Hg : len words - 1 = Z.of_nat (length words - 1))
      by (unfold len; lia).
    destruct (Z.eqb_spec (len words - 1) 0) as [E0|_]; [lia|].
    cbn [bind].
    pose proof (justify_loop_refines E ca (len words - 1)
                  ((width - sum (map len words)) / (len words - 1))
                  ((width - sum (map len words)) mod (len words - 1))
                  (enumerate words)) as Hloop.
    destruct (Hloop) with (parts := @nil (list N)) as [->|(e & He & ->)].
    + intros i w Hin Hi. unfold enumerate in Hin.
      apply enumerate_from_In in Hin as (_ & j & Hj & ->).
      apply (proj1 (Forall_forall _ _) H).
      unfold repetition_counts, words. fold words.
      unfold gap_widths. apply in_map_iff. exists j.
      split; [reflexivity|]. apply in_seq. lia.
    + now left.
    + right. now exists e.
Qed.

(** The counts lie between zero and the number of spaces to distribute. *)
Lemma gap_width_bounds (total_spaces gaps i : Z) :
  1 <= gaps -> 0 <= i ->
  Z.min 0 total_spaces
  <= gap_width (total_spaces / gaps) (total_spaces mod gaps) i
  <= Z.max 0 total_spaces.
Proof.
  intros Hg Hi. unfold gap_width.
  pose proof (Z.div_mod total_spaces gaps ltac:(lia)) as Hdiv.
  pose proof (Z.mod_pos_bound total_spaces gaps ltac:(lia)) as Hmod.
  set (b := total_spaces / gaps) in *. set (e := total_spaces mod gaps) in *.
  destruct (Z.le_gt_cases 0 total_spaces) as [Ht|Ht].
  - assert (0 <= b) by (apply Z.div_pos; lia).
    destruct (Z.ltb_spec i e); nia.
  - assert (b < 0) by (apply Z.div_lt_upper_bound; lia).
    destruct (Z.ltb_spec i e); nia.
Qed.

Lemma repetition_counts_bounds (words : list str) (width : Z) :
  words <> [] ->
  Forall (fun n => Z.min 0 (width - sum (map len words)) <= n
                   <= Z.max 0 (width - sum (map len words)))
    (repetition_counts words width).
Proof.
  intros Hne. destruct words as [|w0 [|w1 r]]; [congruence | |].
  - cbn [repetition_counts map]. rewrite sum_cons, sum_nil.
    repeat constructor; lia.
  - set (words := w0 :: w1 :: r). unfold repetition_counts. fold words.
    cbv zeta. unfold gap_widths. apply Forall_map, Forall_forall.
    intros j _. apply gap_width_bounds; [|lia].
    unfold len, words. cbn [length]. lia.
Qed.

(** Within the index range, [justify_line] returns its line unless an
    allocation fails. *)
Lemma justify_line_checked_refines (ca : Z -> bool)
  (self : TextFormatter) (words : list str) (width : Z) :
  width <= CPython.ssize_max ->
  CPython.ssize_min <= width - sum (map len words) ->
  refines (alloc_fails ca width)
    (CPython.justify_line ca self words width)
    (justify_line self words width).
Proof.
  intros Hhi Hlo. destruct words as [|w0 ws]; [now left|].
  apply justify_line_refines_counts.
  generalize (repetition_counts_bounds (w0 :: ws) width ltac:(discriminate)).
  apply Forall_impl. intros n Hn.
  pose proof (sum_len_nonneg (w0 :: ws)).
  assert (CPython.ssize_min <= 0) by discriminate.
  apply str_mul_checked_refines; lia.
Qed.

(** The same on the words of a line of the wrapper, at any lower width. *)
Lemma justify_line_checked_good_group (ca : Z -> bool)
  (self : TextFormatter) (width : Z) (g : list str) :
  good_group width g ->
  width <= CPython.ssize_max ->
  refines (alloc_fails ca width)
    (CPython.justify_line ca self g width) (justify_line self g width).
Proof.
  intros (Hne & Hws & [Hfit|[w ->]]) Hhi.
  - apply justify_line_checked_refines; [assumption|].
    rewrite len_join in Hfit by assumption.
    pose proof (len_pos _ g Hne).
    assert (CPython.ssize_min <= 0) by discriminate. lia.
  - apply justify_line_refines_counts. cbn [repetition_counts].
    constructor; [|constructor].
    assert (CPython.ssize_min <= 0) by discriminate.
    pose proof (len_nonneg _ w).
    apply str_mul_checked_refines; lia.
Qed.

Lemma justify_line_checked_errors (ca : Z -> bool)
  (self : TextFormatter) (words : list str) (width : Z) :
  only_raises repetition_error (CPython.justify_line ca self words width).
Proof.
  destruct words as [|w0 [|w1 r]]; unfold CPython.justify_line.
  - apply only_raises_Ok.
  - apply only_raises_bind; [apply str_mul_checked_errors|].
    intros a. apply only_raises_Ok.
  - cbv zeta. unfold divmod.
    destruct (Z.eqb_spec (len (w0 :: w1 :: r) - 1) 0) as [E0|_];
      [unfold len in E0; cbn [length] in E0; lia|].
    cbn [bind]. apply only_raises_bind; [|intros a; apply only_raises_Ok].
    apply only_raises_foldM. intros parts [i w].
    unfold CPython.justify_step. destruct (i <? _); [|apply only_raises_Ok].
    apply only_raises_bind; [apply str_mul_checked_errors|].
    intros a. apply only_raises_Ok.
Qed.


(** ** The paragraph formatter and [format_text] with the bounded repetition *)

Lemma justify_paragraph_checked_refines (ca : Z -> bool)
  (self : TextFormatter) (paragraph : str) (width : Z) (jl : bool) :
  width <= CPython.ssize_max ->
  refines (alloc_fails ca width)
    (CPython.justify_paragraph ca self paragraph width jl)
    (justify_paragraph self paragraph width jl).
Proof.
  intros Hhi. unfold CPython.justify_paragraph, justify_paragraph.
  apply foldM_refines. intros acc [i line] Hin.
  unfold enumerate in Hin. apply enumerate_from_In in Hin as [Hin _].
  unfold CPython.justify_paragraph_step, justify_paragraph_step.
  destruct ((i =? _) && negb jl); [now left|].
  apply refines_bind; [|intros a _; now left].
  apply justify_line_checked_good_group; [|assumption].
  now apply (proj1 (Forall_forall _ _)
               (wrap_paragraph_good_lines self paragraph width) line Hin).
Qed.

Lemma format_text_checked_refines (ca : Z -> bool)
  (self : TextFormatter) (text : str) (width : option Z) (justify jl : bool) :
  let w := match width with None => default_width self | Some w => w end in
  w <= CPython.ssize_max ->
  refines (alloc_fails ca w)
    (CPython.format_text ca self text width justify jl)
    (format_text self text width justify jl).
Proof.
  intros w Hhi. unfold CPython.format_text, format_text. fold w.
  apply refines_bind; [|intros a _; now left].
  apply foldM_refines. intros acc p _.
  unfold CPython.format_text_step, format_text_step.
  apply refines_bind; [|intros a _; now left].
  destruct justify; [|now left].
  now apply justify_paragraph_checked_refines.
Qed.

(** Without justification nothing is repeated. *)
Lemma format_text_checked_wrap_only (ca : Z -> bool)
  (self : TextFormatter) (text : str) (width : option Z) (jl : bool) :
  CPython.format_text ca self text width false jl
  = format_text self text width false jl.
Proof.
  apply (refines_eq _ (fun _ => False)); [now intros e|].
  unfold CPython.format_text, format_text.
  apply refines_bind; [|intros a _; now left].
  apply foldM_refines. intros acc p _. now left.
Qed.

Lemma justify_paragraph_checked_errors (ca : Z -> bool)
  (self : TextFormatter) (paragraph : str) (width : Z) (jl : bool) :
  only_raises repetition_error
    (CPython.justify_paragraph ca self paragraph width jl).
Proof.
  unfold CPython.justify_paragraph. apply only_raises_foldM.
  intros acc [i line]. unfold CPython.justify_paragraph_step.
  destruct ((i =? _) && negb jl); [apply only_raises_Ok|].
  apply only_raises_bind; [apply justify_line_checked_errors|].
  intros a. apply only_raises_Ok.
Qed.

Lemma format_text_checked_errors (ca : Z -> bool)
  (self : TextFormatter) (text : str) (width : option Z) (justify jl : bool) :
  only_raises repetition_error
    (CPython.format_text ca self text width justify jl).
Proof.
  unfold CPython.format_text.
  apply only_raises_bind; [|intros a; apply only_raises_Ok].
  apply only_raises_foldM. intros acc p. unfold CPython.format_text_step.
  apply only_raises_bind; [|intros a; apply only_raises_Ok].
  destruct justify; [apply justify_paragraph_checked_errors|].
  apply only_raises_Ok.
Qed.

Lemma alloc_fails_none (ca : Z -> bool) (width : Z) :
  (forall n, 1 <= n <= width -> ca n = true) ->
  forall e, ~ alloc_fails ca width e.
Proof. intros H e (_ & n & Hn & Hca). rewrite (H n Hn) in Hca. discriminate. Qed.

(** C10, as amended. With the repetition as CPython bounds it,
    [format_text] never raises [ZeroDivisionError], at any width: an
    exception can only come from a repetition ([OverflowError] or
    [MemoryError]).  Without [justify] it returns a string at every width,
    zero and negative ones included.  At a width that is index-sized
    (at most [2^63 - 1], zero and negative ones included) it does not
    raise [OverflowError], every repetition count lying between zero and
    the width, and it returns a string when strings of up to [width]
    characters can be allocated.  Where [divmod] runs the divisor [gaps]
    is at least one; a space count that is zero or negative and
    index-sized gives the empty gap string. *)
Theorem format_text_raises_only_in_repetition
  (can_allocate : Z -> bool)
  (self : TextFormatter) (text : str) (width : option Z) (justify jl : bool)
  (words : list str) (w n : Z) :
  let width' := match width with None => default_width self | Some w => w end in
  (forall e, CPython.format_text can_allocate self text width justify jl = Raise e ->
             e = OverflowError \/ e = MemoryError) /\
  (justify = false ->
   exists out,
     CPython.format_text can_allocate self text width justify jl = Ok out) /\
  (width' <= CPython.ssize_max ->
   CPython.format_text can_allocate self text width justify jl
   <> Raise OverflowError /\
   ((forall k, 1 <= k <= width' -> can_allocate k = true) ->
    exists out,
      CPython.format_text can_allocate self text width justify jl = Ok out /\
      format_text self text width justify jl = Ok out)) /\
  ((2 <= length words)%nat ->
   let gaps := len words - 1 in
   let total_spaces := w - sum (map len words) in
   1 <= gaps /\
   divmod total_spaces gaps = Ok (total_spaces / gaps, total_spaces mod gaps)) /\
  (CPython.ssize_min <= n <= 0 -> CPython.str_mul can_allocate [SP] n = Ok []).
Proof.
  intros width'. split; [|split; [|split; [|split]]].
  - apply format_text_checked_errors.
  - intros ->. rewrite format_text_checked_wrap_only.
    apply format_text_total.
  - intros Hhi.
    pose proof (format_text_checked_refines can_allocate self text width
                  justify jl Hhi) as Href.
    destruct (format_text_total self text width justify jl) as (out & Hout).
    split.
    + destruct Href as [Href|(e & [-> _] & Href)]; congruence.
    + intros Halloc. exists out. split; [|assumption].
      rewrite <- Hout. apply (refines_eq _ _ _ _ (alloc_fails_none _ _ Halloc)).
      exact Href.
  - intros Hn gaps total_spaces.
    assert (1 <= gaps) by (unfold gaps, len; lia).
    split; [assumption|].
    unfold divmod. destruct (Z.eqb_spec gaps 0); [lia | reflexivity].
  - apply str_mul_checked_nonpos.
Qed.

Lemma format_text_raises_only_in_repetition_witness :
  (exists out,
      CPython.format_text (fun _ => true) formatter (lit "to be or not")
        (Some (-3)) false true = Ok out) /\
  (exists out,
      CPython.format_text (fun _ => true) formatter (lit "to be or not")
        (Some 8) true true = Ok out /\
      format_text formatter (lit "to be or not") (Some 8) true true = Ok out) /\
  divmod (2 - 6) 2 = Ok (-2, 0) /\
  CPython.str_mul (fun _ => true) [SP] (-2) = Ok [].
Proof.
  pose proof (format_text_raises_only_in_repetition (fun _ => true) formatter
                (lit "to be or not") (Some (-3)) false true
                [lit "to"; lit "be"; lit "or"] 2 (-2))
    as (_ & Hwrap & _ & Hdiv & Hmul).
  pose proof (format_text_raises_only_in_repetition (fun _ => true) formatter
                (lit "to be or not") (Some 8) true true
                [lit "to"; lit "be"; lit "or"] 2 (-2))
    as (_ & _ & Hjust & _ & _).
  split; [now apply Hwrap|].
  split; [apply Hjust; [discriminate | reflexivity]|].
  split; [apply Hdiv; cbn [length]; lia|].
  apply Hmul. split; [discriminate | lia].
Defined.

(** C10, as stated, fails: at a width that is not index-sized the
    justified padding raises [OverflowError], whatever the machine can
    allocate, and so does a negative space count that is not index-sized;
    the unbounded repetition returns a string in both cases. *)
Lemma format_text_overflow_at_huge_width :
  CPython.format_text (fun _ => true) formatter (lit "a b c")
    (Some (2 ^ 70)) true true = Raise OverflowError /\
  CPython.justify_line (fun _ => true) formatter [lit "a"; lit "b"]
    (- 2 ^ 70) = Raise OverflowError.
Proof. split; vm_compute; reflexivity. Qed.

(** ** [justify_line] on words that do not fit, and the length of its line *)



(** X2. On a list of words that is not empty, at a width that is
    index-sized (at most [2^63 - 1]), with a number of spaces to
    distribute of at least [-2^63], and when strings of up to [width]
    characters can be allocated, [justify_line] returns a line whose
    length is the larger of [width] and the total length of the words:
    exactly [width] when the words fit, one word included (it is padded on
    the right), and the words' own length when they do not. *)
Theorem justify_line_length (can_allocate : Z -> bool)
  (self : TextFormatter) (words : list str) (width : Z) :
  words <> [] ->
  width <= CPython.ssize_max ->
  CPython.ssize_min <= width - sum (map len words) ->
  (forall n, 1 <= n <= width -> can_allocate n = true) ->
  exists line,
    CPython.justify_line can_allocate self words width = Ok line /\
    len line = Z.max width (sum (map len words)) /\
    width <= len line.
Proof.
  intros Hne Hhi Hlo Halloc.
  destruct (justify_line_len_max self words width Hne) as (line & E & Hl).
  exists line. split; [|split; [assumption | lia]].
  rewrite <- E.
  apply (refines_eq _ _ _ _ (alloc_fails_none _ _ Halloc)).
  now apply justify_line_checked_refines.
Qed.

Lemma justify_line_length_witness :
  exists line,
    CPython.justify_line (fun n => n <=? 5) formatter [lit "abc"] 5 = Ok line /\
    len line = Z.max 5 (sum (map len [lit "abc"])) /\
    5 <= len line.
Proof.
  apply (justify_line_length (fun n => n <=? 5) formatter [lit "abc"] 5).
  - discriminate.
  - discriminate.
  - vm_compute. discriminate.
  - intros n Hn. apply Z.leb_le. lia.
Defined.
